(** * hl: line-framed request/response server

    Shallow embedding of
      - [hl::RequestHandler::handle]         (src/hl/RequestHandler.cpp)
      - [ss::SessionImp::close] and
        [ss::SessionImp::operator()]         (src/ss/Session.cpp)
    and the properties of the framing, coalescing, dispatch and close
    behaviour that the specification states about them. *)

From Stdlib Require Import Ascii String.
From Stdlib Require Import List ZArith Lia Bool.
Import ListNotations.

Set Implicit Arguments.

(* ===================================================================== *)
(** * Part I: definitions                                                 *)
(* ===================================================================== *)

(** [std::string]: a sequence of bytes. *)
Definition std_string : Type := list ascii.

(** A C string literal as a [std::string]. *)
Definition lit (s : string) : std_string := list_ascii_of_string s.

(** [#define DATA_DELIMITER '\n'] *)
Definition DATA_DELIMITER : ascii := "010"%char.

Definition is_delimiter (c : ascii) : bool := Ascii.eqb c DATA_DELIMITER.

(** [std::string::empty()] *)
Definition empty (s : std_string) : bool :=
  match s with [] => true | _ :: _ => false end.

(** [boost::system::error_code], by the three shapes the code tells apart:
    the default-constructed value (no failure), [asio::error::eof], and any
    other failing code, which carries its [message()]. *)
Inductive error_code : Type :=
| no_error
| eof
| io_error (message : std_string).

Definition failed (e : error_code) : bool :=
  match e with no_error => false | _ => true end.

Definition is_eof (e : error_code) : bool :=
  match e with eof => true | _ => false end.

(* --------------------------------------------------------------------- *)
(** ** The frame splitter: [std::sregex_token_iterator] on the delimiter  *)
(* --------------------------------------------------------------------- *)

(** The tokens of [std::sregex_token_iterator{first, last, re, -1}] for the
    one-character regex [DATA_DELIMITER], in iteration order.  Submatch -1
    yields the text before each match; after the last match the remaining
    suffix is yielded only when it is non-empty; when there is no match at
    all the whole range is the single token, empty or not.

    [after_match] tells that the text scanned so far ended with a match, so
    an input ending here has an empty suffix that is not yielded. *)
Fixpoint regex_tokens (after_match : bool) (s : std_string)
  : list std_string :=
  match s with
  | [] => if after_match then [] else [[]]
  | c :: rest =>
      if is_delimiter c then [] :: regex_tokens true rest
      else match regex_tokens false rest with
           | tok :: toks => (c :: tok) :: toks
           | [] => [[c]]
           end
  end.

(** An iterator is the list of tokens from its position on: the head is
    [*it], the tail is what [++it] moves to, [[]] is the end iterator. *)
Definition sregex_token_iterator (s : std_string) : list std_string :=
  regex_tokens false s.

(** The loop of Session.cpp, lines 113-116:
    [for (; std::next(it) != end; ++it, ++ignoreRequestCounter) {}] *)
Fixpoint skip_to_last (requestIterator : list std_string)
         (ignoreRequestCounter : Z) : list std_string * Z :=
  match requestIterator with
  | _ :: (_ :: _) as next =>
      skip_to_last next (ignoreRequestCounter + 1)
  | _ => (requestIterator, ignoreRequestCounter)
  end.

(** [*req_.rbegin()]; the buffer must not be empty. *)
Definition rbegin (s : std_string) : option ascii :=
  match rev s with
  | c :: _ => Some c
  | [] => None
  end.

(** *** The frame splitter as the specification words it

    Splitting a buffer on every delimiter gives the delimiter-terminated
    segments (the complete frames) and the text after the last delimiter
    (the trailing partial segment, possibly empty). *)
Fixpoint split_frames (buf : std_string) : list std_string * std_string :=
  match buf with
  | [] => ([], [])
  | c :: rest =>
      let (frames, partial) := split_frames rest in
      if is_delimiter c then ([] :: frames, partial)
      else match frames with
           | [] => ([], c :: partial)
           | f :: frames' => ((c :: f) :: frames', partial)
           end
  end.

(** The wire form of a sequence of complete frames. *)
Definition wire (frames : list std_string) : std_string :=
  concat (map (fun f => f ++ [DATA_DELIMITER]) frames).

(** A frame carries no delimiter byte. *)
Definition no_delimiter (s : std_string) : Prop :=
  Forall (fun c => is_delimiter c = false) s.

(* --------------------------------------------------------------------- *)
(** ** hl::RequestHandler                                                 *)
(* --------------------------------------------------------------------- *)

Module hl.

(** The status code of a response.  Modelled from the spec: the constants
    [SUCCESS_CODE] and [FAILURE_CODE] are declared in hl/ResponseObject.hpp,
    which is not among the sources; the specification gives the status code
    exactly two values, success and failure. *)
Inductive ReturnCode : Type := SUCCESS_CODE | FAILURE_CODE.

(** [hl::RequestObject], with the fields [handle] reads. *)
Module RequestObject.
Record t (AdditionalInfo : Type) : Type := make {
  msg_num : Z;
  id : Z;
  buf_type : std_string;
  buf_name : std_string;
  buf_body : std_string;
  additional_info : AdditionalInfo
}.
End RequestObject.

(** [hl::ResponseObject], with the seven fields of its brace initialiser in
    the order [handle] gives them. *)
Module ResponseObject.
Record t (Token : Type) : Type := make {
  msg_num : Z;
  id : Z;
  buf_type : std_string;
  buf_name : std_string;
  return_code : ReturnCode;
  error_message : std_string;
  tokens : list Token
}.
End ResponseObject.

(** What [handle] calls and the sources do not contain: the constructor
    [RequestObject{request}], which returns the parsed envelope or throws a
    [std::exception] whose [what()] is the parse error text; the registry
    [tokenizer::TokenizerFactory::getTokenizer], which answers [nullptr]
    for a type it does not know; [Tokenizer::tokenize], which returns the
    status text and fills the token list; [ResponseObject::dump], which
    serialises the envelope into the output buffer given to it. *)
Class Collaborators : Type := {
  AdditionalInfo : Type;
  Token : Type;
  Tokenizer : Type;
  RequestObject_ctor :
    std_string -> RequestObject.t AdditionalInfo + std_string;
  getTokenizer : std_string -> option Tokenizer;
  tokenize :
    Tokenizer -> std_string -> std_string -> AdditionalInfo ->
    std_string * list Token;
  dump : ResponseObject.t Token -> std_string -> std_string
}.

(** Modelled from the spec: the constructor of [RequestObject] is in
    hl/RequestObject.hpp, which is not among the sources; the specification
    has malformed input fail construction "with a descriptive error", so the
    text of a parse error is not empty. *)
Definition descriptive_parse_errors (C : Collaborators) : Prop :=
  forall request what, RequestObject_ctor request = inr what -> what <> [].

Section RequestHandler.
Context {C : Collaborators}.

Definition couldnt_get_tokenizer : std_string :=
  lit "couldn't get tokenizer for buffer type: ".

(** [ss::error_code RequestHandler::handle(std::string_view request,
                                           OUTPUT std::string &response)]:
    the returned code and the new content of [response]. *)
Definition handle (request : std_string) (response : std_string)
  : error_code * std_string :=
  let returnCode := no_error in
  match RequestObject_ctor request with
  | inr what =>
      (* catch (std::exception &e): send error message for client *)
      let responseObject :=
        ResponseObject.make 0 0 [] [] FAILURE_CODE what [] in
      (returnCode, dump responseObject response)
  | inl requestObject =>
      match getTokenizer (RequestObject.buf_type requestObject) with
      | None =>
          let responseObject :=
            ResponseObject.make
              (RequestObject.msg_num requestObject)
              (RequestObject.id requestObject)
              (RequestObject.buf_type requestObject)
              (RequestObject.buf_name requestObject)
              FAILURE_CODE
              (couldnt_get_tokenizer
                 ++ RequestObject.buf_type requestObject)
              [] in
          (returnCode, dump responseObject response)
      | Some tokenizer =>
          let (status, tokens) :=
            tokenize tokenizer
                     (RequestObject.buf_name requestObject)
                     (RequestObject.buf_body requestObject)
                     (RequestObject.additional_info requestObject) in
          let responseObject :=
            ResponseObject.make
              (RequestObject.msg_num requestObject)
              (RequestObject.id requestObject)
              (RequestObject.buf_type requestObject)
              (RequestObject.buf_name requestObject)
              (if empty status then SUCCESS_CODE else FAILURE_CODE)
              status
              tokens in
          (returnCode, dump responseObject response)
      end
  end.

End RequestHandler.

End hl.

(* --------------------------------------------------------------------- *)
(** ** ss::SessionImp                                                     *)
(* --------------------------------------------------------------------- *)

Module ss.

(** [AbstractRequestHandler]: the Dispatch Contract.  [handle request res]
    gives the returned code and the new content of the output buffer. *)
Record AbstractRequestHandler : Type := {
  handle : std_string -> std_string -> error_code * std_string
}.

(** [Handler] is a pointer to a handler; [None] is [nullptr]. *)
Definition Handler : Type := option AbstractRequestHandler.

Record AbstractHandlerFactory : Type := {
  getRequestHandler : Handler
}.

(** What one activation of the session finds around it: the answer of
    [Context::getHandlerFactory()] ([None] is [nullptr]) and the codes the
    socket reports for [cancel], [shutdown] and [close]. *)
Record Ambient : Type := {
  getHandlerFactory : option AbstractHandlerFactory;
  cancel_error : error_code;
  shutdown_error : error_code;
  close_error : error_code
}.

Inductive Level : Type := DEBUG | INFO | WARNING | ERROR.

(** The log lines of Session.cpp, with their arguments. *)
Inductive Message : Type :=
| try_close_session
| error_message (e : error_code)
| readed (transfered : N)
| in_buffer (size : nat)
| handler_factory_not_set
| invalid_handler
| was_ignored (ignoreRequestCounter : Z)
| handle_request
| response_is_empty
| partial_data_read_again
| writed (transfered : N)
| client_close_socket.

(** What an activation does to the world outside the object, in order. *)
Inductive Event : Type :=
| Log (level : Level) (message : Message)
| sock_cancel
| sock_shutdown_both
| sock_close
| mainClose                                   (* the owner's close signal *)
| handler_handle (request : std_string)       (* [handler->handle(...)]   *)
| async_read_until                            (* read issued on [req_]    *)
| async_write (data : std_string).            (* write issued on [res_]   *)

(** [asio::coroutine]: not yet entered, suspended at the first [yield]
    (the read), suspended at the second [yield] (the write), complete. *)
Inductive coroutine : Type :=
| coro_initial
| coro_at_read
| coro_at_write
| coro_complete.

Record SessionImp : Type := {
  coro : coroutine;
  closeConnection : bool;     (* the slot of [atClose_] is connected *)
  sock_ : bool;               (* [sock_.is_open()]                   *)
  req_ : std_string;
  res_ : std_string
}.

(** The constructor: both buffers empty, the owner's signal connected. *)
Definition SessionImp_new (sock_is_open : bool) : SessionImp :=
  {| coro := coro_initial; closeConnection := true; sock_ := sock_is_open;
     req_ := []; res_ := [] |}.

Definition set_coro (c : coroutine) (s : SessionImp) : SessionImp :=
  {| coro := c; closeConnection := closeConnection s; sock_ := sock_ s;
     req_ := req_ s; res_ := res_ s |}.
Definition set_closeConnection (b : bool) (s : SessionImp) : SessionImp :=
  {| coro := coro s; closeConnection := b; sock_ := sock_ s;
     req_ := req_ s; res_ := res_ s |}.
Definition set_sock (b : bool) (s : SessionImp) : SessionImp :=
  {| coro := coro s; closeConnection := closeConnection s; sock_ := b;
     req_ := req_ s; res_ := res_ s |}.
Definition set_req (r : std_string) (s : SessionImp) : SessionImp :=
  {| coro := coro s; closeConnection := closeConnection s; sock_ := sock_ s;
     req_ := r; res_ := res_ s |}.
Definition set_res (r : std_string) (s : SessionImp) : SessionImp :=
  {| coro := coro s; closeConnection := closeConnection s; sock_ := sock_ s;
     req_ := req_ s; res_ := r |}.

(** Member functions run on the object and emit events; [None] is
    undefined behaviour. *)
Definition M (A : Type) : Type :=
  SessionImp -> option (A * SessionImp * list Event).

Definition ret {A} (a : A) : M A := fun s => Some (a, s, []).

Definition bind {A B} (m : M A) (k : A -> M B) : M B :=
  fun s =>
    match m s with
    | None => None
    | Some (a, s1, t1) =>
        match k a s1 with
        | None => None
        | Some (b, s2, t2) => Some (b, s2, t1 ++ t2)
        end
    end.

Definition this : M SessionImp := fun s => Some (s, s, []).
Definition update (f : SessionImp -> SessionImp) : M unit :=
  fun s => Some (tt, f s, []).
Definition emit (e : Event) : M unit := fun s => Some (tt, s, [e]).
Definition undefined {A} : M A := fun _ => None.
Definition when (b : bool) (m : M unit) : M unit := if b then m else ret tt.

Declare Scope session_scope.
Delimit Scope session_scope with session.
Notation "x <- m ;; k" := (bind m (fun x => k))
  (at level 61, m at next level, right associativity) : session_scope.
Notation "m ;; k" := (bind m (fun _ => k))
  (at level 61, right associativity) : session_scope.
Local Open Scope session_scope.

(** [void close() noexcept] *)
Definition close (w : Ambient) : M unit :=
  emit (Log DEBUG try_close_session) ;;
  s <- this ;;
  when (sock_ s)
    (emit sock_cancel ;;
     when (failed (cancel_error w))
          (emit (Log ERROR (error_message (cancel_error w)))) ;;
     emit sock_shutdown_both ;;
     when (failed (shutdown_error w))
          (emit (Log ERROR (error_message (shutdown_error w)))) ;;
     emit sock_close ;;
     update (set_sock false) ;;
     when (failed (close_error w))
          (emit (Log ERROR (error_message (close_error w))))) ;;
  (* emit signal about closing session: [atClose_()] *)
  s <- this ;;
  when (closeConnection s) (emit mainClose) ;;
  (* [closeConnection.disconnect()] *)
  update (set_closeConnection false).

(** How the request-handling block (lines 89-148) leaves the loop body. *)
Inductive flow : Type := Break | Continue | FallThrough.

Definition request_handling (w : Ambient) : M flow :=
  match getHandlerFactory w with
  | None =>
      emit (Log ERROR handler_factory_not_set) ;; close w ;; ret Break
  | Some factory =>
      match getRequestHandler factory with
      | None =>
          emit (Log ERROR invalid_handler) ;; close w ;; ret Break
      | Some handler =>
          s <- this ;;
          let requestIterator := sregex_token_iterator (req_ s) in
          let (requestIterator, ignoreRequestCounter) :=
            skip_to_last requestIterator 0 in
          when (negb (ignoreRequestCounter =? 0)%Z)
               (emit (Log INFO (was_ignored ignoreRequestCounter))) ;;
          match rbegin (req_ s), requestIterator with
          | Some c, request :: _ =>
              if Ascii.eqb c DATA_DELIMITER then
                (* buffer contains complete request, so handle it *)
                emit (Log DEBUG handle_request) ;;
                emit (handler_handle request) ;;
                let (err, res) := handle handler request (res_ s) in
                update (set_res res) ;;
                if failed err then
                  emit (Log ERROR (error_message err)) ;;
                  close w ;; ret Break
                else if empty res then
                  emit (Log ERROR response_is_empty) ;;
                  close w ;; ret Break
                else ret FallThrough
              else
                (* buffer contains partial data, so we need read again *)
                emit (Log DEBUG partial_data_read_again) ;;
                update (set_req request) ;;
                ret Continue
          | _, _ => undefined
          end
      end
  end.

(** [yield asio::async_read_until(sock_, asio::dynamic_buffer(req_), ...)] *)
Definition yield_read : M unit :=
  emit async_read_until ;; update (set_coro coro_at_read).

(** [void operator()(self, const error_code &error, size_t transfered)]:
    the start of the session and the completion handler of both
    asynchronous operations. *)
Definition operator_call (w : Ambient) (error : error_code)
           (transfered : N) : M unit :=
  if negb (failed error) then
    s <- this ;;
    match coro s with
    | coro_complete => ret tt
    | coro_initial => yield_read
    | coro_at_read =>
        emit (Log INFO (readed transfered)) ;;
        emit (Log INFO (in_buffer (length (req_ s)))) ;;
        f <- request_handling w ;;
        match f with
        | Break => update (set_coro coro_complete)
        | Continue => yield_read
        | FallThrough =>
            (* add delimiter symbol for response *)
            s <- this ;;
            update (set_res (res_ s ++ [DATA_DELIMITER])) ;;
            s <- this ;;
            emit (async_write (res_ s)) ;;
            update (set_coro coro_at_write)
        end
    | coro_at_write =>
        emit (Log INFO (writed transfered)) ;;
        (* clear buffers *)
        update (set_req []) ;;
        update (set_res []) ;;
        yield_read
    end
  else if is_eof error then
    emit (Log DEBUG client_close_socket) ;; close w
  else
    emit (Log WARNING (error_message error)) ;; close w.

(** [void start(self)]: [operator()(self, error_code{}, 0)]. *)
Definition start (w : Ambient) : M unit := operator_call w no_error 0%N.

(** While a read is pending, [asio::dynamic_buffer(req_)] grows [req_] by
    the bytes that arrive. *)
Definition received (data : std_string) (s : SessionImp) : SessionImp :=
  set_req (req_ s ++ data) s.

(** Projections of a trace. *)
Definition dispatched (t : list Event) : list std_string :=
  flat_map (fun e => match e with handler_handle r => [r] | _ => [] end) t.
Definition written (t : list Event) : list std_string :=
  flat_map (fun e => match e with async_write d => [d] | _ => [] end) t.
Definition reads_issued (t : list Event) : nat :=
  length (filter (fun e => match e with async_read_until => true
                                   | _ => false end) t).
Definition notifications (t : list Event) : nat :=
  length (filter (fun e => match e with mainClose => true
                                   | _ => false end) t).
Definition socket_operations (t : list Event) : list Event :=
  filter (fun e => match e with
                   | sock_cancel | sock_shutdown_both | sock_close => true
                   | _ => false end) t.
Definition ignored_logged (t : list Event) : list Z :=
  flat_map (fun e => match e with Log _ (was_ignored n) => [n] | _ => [] end)
           t.

(** The object as [close()] leaves it: the socket released, the owner
    detached from the close signal, the rest untouched. *)
Definition after_close (s : SessionImp) : SessionImp :=
  {| coro := coro s; closeConnection := false; sock_ := false;
     req_ := req_ s; res_ := res_ s |}.

(** A trace without dispatch and without asynchronous operation. *)
Definition no_io (t : list Event) : Prop :=
  dispatched t = [] /\ written t = [] /\ reads_issued t = 0.

(** No handler can be had: the factory is null or gives a null handler. *)
Definition no_handler (w : Ambient) : Prop :=
  getHandlerFactory w = None
  \/ exists factory, getHandlerFactory w = Some factory
                     /\ getRequestHandler factory = None.

(** The three socket calls of [close()], in their order. *)
Definition release : list Event :=
  [sock_cancel; sock_shutdown_both; sock_close].

(** The session is closed: the socket is released and the owner has been
    detached from the close signal. *)
Definition closed (s : SessionImp) : Prop :=
  sock_ s = false /\ closeConnection s = false.

End ss.

(* --------------------------------------------------------------------- *)
(** ** A small instance of the collaborators, to run the model on         *)
(* --------------------------------------------------------------------- *)

Module Demo.

Inductive tokenizer : Type := letters | strict.

(** A request is its one-letter type followed by its body; the empty
    request does not parse. *)
Definition parse (request : std_string)
  : hl.RequestObject.t unit + std_string :=
  match request with
  | [] => inr (lit "empty request")
  | c :: body => inl (hl.RequestObject.make 4 7 [c] (lit "main.c") body tt)
  end.

Definition lookup (buf_type : std_string) : option tokenizer :=
  match buf_type with
  | ["l"%char] => Some letters
  | ["s"%char] => Some strict
  | _ => None
  end.

Definition run (t : tokenizer) (name body : std_string) (info : unit)
  : std_string * list ascii :=
  match t with
  | letters => ([], body)
  | strict => (lit "bad input", firstn 1 body)
  end.

Definition serialise (r : hl.ResponseObject.t ascii) (response : std_string)
  : std_string :=
  match hl.ResponseObject.return_code r with
  | hl.SUCCESS_CODE => lit "ok " ++ hl.ResponseObject.tokens r
  | hl.FAILURE_CODE => lit "error " ++ hl.ResponseObject.error_message r
  end.

#[export] Instance collaborators : hl.Collaborators := {|
  hl.AdditionalInfo := unit;
  hl.Token := ascii;
  hl.Tokenizer := tokenizer;
  hl.RequestObject_ctor := parse;
  hl.getTokenizer := lookup;
  hl.tokenize := run;
  hl.dump := serialise
|}.

(** The request handler as the session's Dispatch Contract. *)
Definition handler : ss.AbstractRequestHandler :=
  {| ss.handle := hl.handle |}.

Definition ambient : ss.Ambient :=
  {| ss.getHandlerFactory := Some {| ss.getRequestHandler := Some handler |};
     ss.cancel_error := no_error;
     ss.shutdown_error := io_error (lit "Transport endpoint is not connected");
     ss.close_error := no_error |}.

(** The surroundings when no handler factory was registered. *)
Definition ambient_without_factory : ss.Ambient :=
  {| ss.getHandlerFactory := None;
     ss.cancel_error := no_error;
     ss.shutdown_error := no_error;
     ss.close_error := no_error |}.

(** A session suspended on its read, with [buf] in the read buffer. *)
Definition reading (buf : std_string) : ss.SessionImp :=
  {| ss.coro := ss.coro_at_read; ss.closeConnection := true;
     ss.sock_ := true; ss.req_ := buf; ss.res_ := [] |}.

Definition nl : std_string := [DATA_DELIMITER].

End Demo.

(* --------------------------------------------------------------------- *)
(** ** ss::Session, the owner's side of a session                         *)
(* --------------------------------------------------------------------- *)

Module Session.

(** The log lines of class [Session] (Session.cpp, lines 200, 206, 210). *)
Inductive Line : Type := session_opened | session_closed | start_session.

(** What a call on a [Session] does: a line of its own, or an event of
    the [SessionImp] it holds in [imp_]. *)
Inductive Event : Type :=
| line (l : Line)
| imp (e : ss.Event).

(** The events of the implementation object within a trace. *)
Definition imp_events (t : list Event) : list ss.Event :=
  flat_map (fun e => match e with imp e => [e] | line _ => [] end) t.

(** [Session::Session(tcp::socket sock)]: [imp_] is made with the socket
    and the signal [atClose] of the session. *)
Definition ctor (sock_is_open : bool) : ss.SessionImp * list Event :=
  (ss.SessionImp_new sock_is_open, [line session_opened]).

(** [Session::~Session()]: [imp_->closeConnection.disconnect()]. *)
Definition dtor (imp_ : ss.SessionImp) : ss.SessionImp * list Event :=
  (ss.set_closeConnection false imp_, [line session_closed]).

(** [void Session::start()] *)
Definition start (w : ss.Ambient) (imp_ : ss.SessionImp)
  : option (ss.SessionImp * list Event) :=
  match ss.start w imp_ with
  | Some (_, s, t) => Some (s, line start_session :: map imp t)
  | None => None
  end.

(** [void Session::close()] *)
Definition close (w : ss.Ambient) (imp_ : ss.SessionImp)
  : option (ss.SessionImp * list Event) :=
  match ss.close w imp_ with
  | Some (_, s, t) => Some (s, map imp t)
  | None => None
  end.

(** What can happen to a session, one step at a time: the calls of its
    owner, the completion handler run by the reactor, and what the pending
    operations do to the two dynamic buffers (a read appends to [req_], a
    write consumes from the front of [res_]). *)
Inductive Call : Type :=
| Start (w : ss.Ambient)
| Close (w : ss.Ambient)
| Destroy
| Completed (w : ss.Ambient) (error : error_code) (transfered : N)
| Arrived (data : std_string)
| Consumed (n : nat).

Definition call (c : Call) (imp_ : ss.SessionImp)
  : option (ss.SessionImp * list Event) :=
  match c with
  | Start w => start w imp_
  | Close w => close w imp_
  | Destroy => Some (dtor imp_)
  | Completed w error transfered =>
      match ss.operator_call w error transfered imp_ with
      | Some (_, s, t) => Some (s, map imp t)
      | None => None
      end
  | Arrived data => Some (ss.received data imp_, [])
  | Consumed n => Some (ss.set_res (skipn n (ss.res_ imp_)) imp_, [])
  end.

(** A sequence of steps, with the trace of all of them. *)
Fixpoint run (calls : list Call) (imp_ : ss.SessionImp)
  : option (ss.SessionImp * list Event) :=
  match calls with
  | [] => Some (imp_, [])
  | c :: calls' =>
      match call c imp_ with
      | None => None
      | Some (s1, t1) =>
          match run calls' s1 with
          | None => None
          | Some (s2, t2) => Some (s2, t1 ++ t2)
          end
      end
  end.

End Session.

(* --------------------------------------------------------------------- *)
(** ** The response object of RequestHandler::handle                      *)
(* --------------------------------------------------------------------- *)

Module RequestHandler.

(** The [ResponseObject] that [handle] builds and dumps for [request], on
    its three paths (RequestHandler.cpp, lines 23, 36-43 and 58-64). *)
Definition responseObject {C : hl.Collaborators} (request : std_string)
  : hl.ResponseObject.t hl.Token :=
  match hl.RequestObject_ctor request with
  | inr what => hl.ResponseObject.make 0 0 [] [] hl.FAILURE_CODE what []
  | inl requestObject =>
      match hl.getTokenizer (hl.RequestObject.buf_type requestObject) with
      | None =>
          hl.ResponseObject.make
            (hl.RequestObject.msg_num requestObject)
            (hl.RequestObject.id requestObject)
            (hl.RequestObject.buf_type requestObject)
            (hl.RequestObject.buf_name requestObject)
            hl.FAILURE_CODE
            (hl.couldnt_get_tokenizer
               ++ hl.RequestObject.buf_type requestObject)
            []
      | Some tokenizer =>
          let (status, tokens) :=
            hl.tokenize tokenizer
                        (hl.RequestObject.buf_name requestObject)
                        (hl.RequestObject.buf_body requestObject)
                        (hl.RequestObject.additional_info requestObject) in
          hl.ResponseObject.make
            (hl.RequestObject.msg_num requestObject)
            (hl.RequestObject.id requestObject)
            (hl.RequestObject.buf_type requestObject)
            (hl.RequestObject.buf_name requestObject)
            (if empty status then hl.SUCCESS_CODE else hl.FAILURE_CODE)
            status
            tokens
      end
  end.

(** The request handler as the handler a factory hands to the session. *)
Definition as_handler {C : hl.Collaborators} : ss.AbstractRequestHandler :=
  {| ss.handle := hl.handle |}.

End RequestHandler.

(** The tokens with one delimiter between each two of them. *)
Fixpoint join (tokens : list std_string) : std_string :=
  match tokens with
  | [] => []
  | [tok] => tok
  | tok :: rest => tok ++ DATA_DELIMITER :: join rest
  end.

(* ===================================================================== *)
(** * Part II: properties                                                 *)
(* ===================================================================== *)

(* --------------------------------------------------------------------- *)
(** ** The frame splitter                                                 *)
(* --------------------------------------------------------------------- *)

#[global] Arguments is_delimiter : simpl never.

Lemma is_delimiter_DATA_DELIMITER : is_delimiter DATA_DELIMITER = true.
Proof. reflexivity. Qed.

Lemma is_delimiter_true (c : ascii) :
  is_delimiter c = true <-> c = DATA_DELIMITER.
Proof. unfold is_delimiter. apply Ascii.eqb_eq. Qed.

Lemma rbegin_app (s : std_string) (c : ascii) : rbegin (s ++ [c]) = Some c.
Proof. unfold rbegin. now rewrite rev_app_distr. Qed.

Lemma rbegin_cons_app (s t : std_string) (c : ascii) :
  rbegin (s ++ c :: t) = rbegin (c :: t).
Proof.
  unfold rbegin. rewrite rev_app_distr.
  destruct (rev (c :: t)) eqn:E; [|reflexivity].
  apply (f_equal (@length ascii)) in E. rewrite length_rev in E. discriminate.
Qed.

Lemma rbegin_no_delimiter (p : std_string) :
  no_delimiter p -> rbegin p <> Some DATA_DELIMITER.
Proof.
  intros H E. unfold rbegin in E.
  destruct (rev p) as [|c r] eqn:R; [discriminate|].
  injection E as ->.
  assert (I : In DATA_DELIMITER p) by (apply in_rev; rewrite R; now left).
  unfold no_delimiter in H. rewrite Forall_forall in H.
  specialize (H _ I). discriminate.
Qed.

(** One complete frame at the front of the input is the first token. *)
Lemma regex_tokens_frame (m : bool) (f rest : std_string) :
  no_delimiter f ->
  regex_tokens m (f ++ DATA_DELIMITER :: rest) = f :: regex_tokens true rest.
Proof.
  intros H. revert m. induction H as [|c f Hc _ IH]; intros m; cbn.
  - now rewrite is_delimiter_DATA_DELIMITER.
  - now rewrite Hc, IH.
Qed.

(** A non-empty text without delimiter is one token. *)
Lemma regex_tokens_partial (m : bool) (p : std_string) :
  no_delimiter p -> p <> [] -> regex_tokens m p = [p].
Proof.
  intros H. revert m. induction H as [|c p Hc Hp IH]; intros m N.
  - congruence.
  - cbn. rewrite Hc. destruct p as [|d p].
    + reflexivity.
    + now rewrite IH.
Qed.

Lemma regex_tokens_wire (frames : list std_string) (tail : std_string) :
  Forall no_delimiter frames ->
  regex_tokens true (wire frames ++ tail) = frames ++ regex_tokens true tail.
Proof.
  intros H. induction H as [|f frames Hf _ IH]; cbn.
  - reflexivity.
  - rewrite <- !app_assoc. cbn. rewrite regex_tokens_frame by assumption.
    unfold wire in IH. now rewrite IH.
Qed.

(** The tokens of a buffer of complete frames are the frames: the empty
    text after the final delimiter is not a token. *)
Lemma sregex_token_iterator_wire (f : std_string) (frames : list std_string) :
  Forall no_delimiter (f :: frames) ->
  sregex_token_iterator (wire (f :: frames)) = f :: frames.
Proof.
  intros H. inversion H as [|? ? Hf Hfs]; subst.
  unfold sregex_token_iterator. cbn. rewrite <- app_assoc. cbn.
  rewrite regex_tokens_frame by assumption.
  rewrite <- (app_nil_r (concat _)).
  change (concat (map (fun f0 => f0 ++ [DATA_DELIMITER]) frames))
    with (wire frames).
  rewrite regex_tokens_wire by assumption. cbn. now rewrite app_nil_r.
Qed.

(** The tokens of complete frames followed by a partial segment. *)
Lemma sregex_token_iterator_partial
      (frames : list std_string) (p : std_string) :
  Forall no_delimiter frames -> no_delimiter p -> p <> [] ->
  sregex_token_iterator (wire frames ++ p) = frames ++ [p].
Proof.
  intros H Hp N. unfold sregex_token_iterator.
  destruct H as [|f frames Hf Hfs].
  - cbn. now apply regex_tokens_partial.
  - cbn. rewrite <- !app_assoc. cbn.
    rewrite regex_tokens_frame by assumption.
    change (concat (map (fun f0 => f0 ++ [DATA_DELIMITER]) frames))
      with (wire frames).
    rewrite regex_tokens_wire by assumption.
    now rewrite regex_tokens_partial.
Qed.

(** The loop stops on the last token and has counted the others. *)
Lemma skip_to_last_app (l : list std_string) (x : std_string) (n : Z) :
  skip_to_last (l ++ [x]) n = ([x], (n + Z.of_nat (length l))%Z).
Proof.
  revert n. induction l as [|a l IH]; intros n.
  - cbn. f_equal. lia.
  - cbn [app skip_to_last length].
    destruct (l ++ [x]) as [|b r] eqn:E.
    + now destruct l.
    + rewrite IH. f_equal. lia.
Qed.

(** The splitter of the specification partitions the buffer. *)
Lemma split_frames_spec (buf : std_string) :
  buf = wire (fst (split_frames buf)) ++ snd (split_frames buf)
  /\ Forall no_delimiter (fst (split_frames buf))
  /\ no_delimiter (snd (split_frames buf)).
Proof.
  induction buf as [|c buf IH]; cbn [split_frames].
  - repeat split; constructor.
  - destruct (split_frames buf) as [frames partial].
    destruct IH as (E & F & P). cbn [fst snd] in *. unfold wire in *.
    destruct (is_delimiter c) eqn:D.
    + apply is_delimiter_true in D. subst c. cbn.
      repeat split; [now rewrite <- E | constructor; [constructor|] | ];
        assumption.
    + destruct frames as [|f frames]; cbn in *.
      * repeat split; [now rewrite E | constructor | constructor];
          assumption.
      * inversion F as [|? ? Hf Hfs].
        repeat split; [now rewrite E | constructor; [constructor|] | ];
          assumption.
Qed.

(** A buffer whose last byte is the delimiter is a sequence of one or more
    complete frames and nothing else. *)
Lemma delimiter_terminated (buf : std_string) :
  rbegin buf = Some DATA_DELIMITER ->
  exists earlier frame,
    Forall no_delimiter (earlier ++ [frame])
    /\ buf = wire (earlier ++ [frame])
    /\ split_frames buf = (earlier ++ [frame], []).
Proof.
  intros R. destruct (split_frames_spec buf) as (E & F & P).
  destruct (split_frames buf) as [frames partial] eqn:S. cbn in *.
  destruct partial as [|c partial].
  - rewrite app_nil_r in E.
    destruct frames as [|f frames] using rev_ind.
    + subst buf. discriminate.
    + exists frames, f. repeat split; assumption.
  - exfalso. rewrite E, rbegin_cons_app in R.
    now apply (rbegin_no_delimiter P).
Qed.

(** A buffer whose last byte is not the delimiter ends with a non-empty
    partial segment. *)
Lemma not_delimiter_terminated (buf : std_string) (c : ascii) :
  rbegin buf = Some c -> c <> DATA_DELIMITER ->
  exists frames partial,
    Forall no_delimiter frames /\ no_delimiter partial /\ partial <> []
    /\ buf = wire frames ++ partial
    /\ split_frames buf = (frames, partial).
Proof.
  intros R N. destruct (split_frames_spec buf) as (E & F & P).
  destruct (split_frames buf) as [frames partial] eqn:S. cbn in *.
  exists frames, partial. repeat split; try assumption.
  intros ->. rewrite app_nil_r in E.
  destruct frames as [|f frames] using rev_ind.
  - subst buf. discriminate.
  - unfold wire in E. rewrite map_app, concat_app in E. cbn in E.
    rewrite app_nil_r, app_assoc in E. rewrite E, rbegin_app in R.
    congruence.
Qed.

Lemma rbegin_wire (earlier : list std_string) (frame : std_string) :
  rbegin (wire (earlier ++ [frame])) = Some DATA_DELIMITER.
Proof.
  unfold wire. rewrite map_app, concat_app. cbn.
  rewrite app_nil_r, app_assoc. apply rbegin_app.
Qed.

Lemma sregex_token_iterator_frames
      (earlier : list std_string) (frame : std_string) :
  Forall no_delimiter (earlier ++ [frame]) ->
  sregex_token_iterator (wire (earlier ++ [frame])) = earlier ++ [frame].
Proof.
  destruct (earlier ++ [frame]) as [|f fs] eqn:E.
  - now destruct earlier.
  - apply sregex_token_iterator_wire.
Qed.

(** The tokens of the iterator are the segments of the specification's
    splitter, the text after the last delimiter being one of them only
    when it is not empty (or when there is no delimiter at all). *)
Lemma sregex_token_iterator_split_frames (buf : std_string) :
  sregex_token_iterator buf
  = match split_frames buf with
    | ([], []) => [[]]
    | (frames, []) => frames
    | (frames, partial) => frames ++ [partial]
    end.
Proof.
  destruct (split_frames_spec buf) as (E & F & P).
  destruct (split_frames buf) as [frames partial]. cbn [fst snd] in *.
  rewrite E. destruct partial as [|c partial].
  - rewrite app_nil_r. destruct frames as [|f frames]; [reflexivity|].
    now apply sregex_token_iterator_wire.
  - assert (T : sregex_token_iterator (wire frames ++ c :: partial)
                = frames ++ [c :: partial])
      by (now apply sregex_token_iterator_partial).
    rewrite T. now destruct frames.
Qed.

Lemma length_wire (frames : list std_string) :
  length frames <= length (wire frames).
Proof.
  induction frames as [|f frames IH]; cbn; [lia|].
  rewrite !length_app. cbn. unfold wire in IH. lia.
Qed.

(** The counter of the loop stays below the size of the buffer, so the
    [int] that holds it does not overflow on a buffer of less than 2^31
    bytes. *)
Lemma ignoreRequestCounter_bound (buf : std_string) :
  (0 <= snd (skip_to_last (sregex_token_iterator buf) 0)
   <= Z.of_nat (length buf))%Z.
Proof.
  assert (T : exists l x, sregex_token_iterator buf = l ++ [x]
                          /\ length l <= length buf).
  { destruct (split_frames_spec buf) as (E & F & P).
    destruct (split_frames buf) as [frames partial]. cbn [fst snd] in *.
    pose proof (length_wire frames) as L.
    assert (B : length buf = length (wire frames) + length partial)
      by (rewrite E at 1; apply length_app).
    destruct partial as [|c partial].
    - rewrite app_nil_r in E.
      destruct frames as [|f frames] using rev_ind.
      + exists [], []. subst buf. split; [reflexivity | cbn; lia].
      + exists frames, f. rewrite E at 1. split.
        * now apply sregex_token_iterator_frames.
        * rewrite length_app in L. cbn in L. lia.
    - exists frames, (c :: partial). rewrite E at 1. split.
      + now apply sregex_token_iterator_partial.
      + lia. }
  destruct T as (l & x & -> & L). rewrite skip_to_last_app. cbn [snd]. lia.
Qed.

(* --------------------------------------------------------------------- *)
(** ** close()                                                            *)
(* --------------------------------------------------------------------- *)

Import ss.
Local Open Scope session_scope.

Lemma close_spec (w : Ambient) (s : SessionImp) :
  exists t,
    close w s = Some (tt, after_close s, t)
    /\ no_io t
    /\ notifications t = (if closeConnection s then 1 else 0)
    /\ socket_operations t
       = (if sock_ s then [sock_cancel; sock_shutdown_both; sock_close]
          else [])
    /\ ignored_logged t = [].
Proof.
  destruct s as [c cc so rq rs]. unfold close, bind, when, this, emit, update.
  cbn. unfold after_close, no_io. cbn.
  destruct so, cc, (failed (cancel_error w)), (failed (shutdown_error w)),
    (failed (close_error w)); cbn; eexists; repeat split.
Qed.

(* --------------------------------------------------------------------- *)
(** ** operator(): completion of a read                                   *)
(* --------------------------------------------------------------------- *)

(** Runs the monadic code of the model as far as it is determined. *)
Ltac run_session :=
  cbv [bind this emit update when ret undefined yield_read
       coro req_ res_ sock_ closeConnection].

(** Settles the projections of a trace made of known events and of the
    traces of [close]. *)
Ltac trace_facts :=
  unfold no_io, dispatched, written, ignored_logged, reads_issued,
    notifications, socket_operations in *;
  rewrite ?app_nil_r;
  cbn [flat_map filter length app];
  repeat match goal with
         | H : _ /\ _ |- _ => destruct H
         end;
  repeat match goal with
         | H : _ = _ |- _ => rewrite H
         end;
  repeat split; try reflexivity.

Lemma counter_is_zero (A : Type) (l : list A) :
  (Z.of_nat (length l) =? 0)%Z = match l with [] => true | _ :: _ => false end.
Proof. destruct l; [reflexivity|]. apply Z.eqb_neq. cbn [length]. lia. Qed.

Section Processing.
Variable w : Ambient.
Variable factory : AbstractHandlerFactory.
Variable handler : AbstractRequestHandler.
Hypothesis factory_set : getHandlerFactory w = Some factory.
Hypothesis handler_valid : getRequestHandler factory = Some handler.

(** A read completes on a buffer of complete frames: the last one is
    handed to the handler, and what the handler answers decides between
    closing and writing. *)
Lemma read_completed_frames (s : SessionImp) (transfered : N)
      (earlier : list std_string) (frame : std_string) :
  coro s = coro_at_read ->
  Forall no_delimiter (earlier ++ [frame]) ->
  req_ s = wire (earlier ++ [frame]) ->
  let (err, res) := handle handler frame (res_ s) in
  let fatal := failed err || empty res in
  exists t,
    operator_call w no_error transfered s
    = Some (tt,
            if fatal
            then set_coro coro_complete (after_close (set_res res s))
            else set_coro coro_at_write
                          (set_res (res ++ [DATA_DELIMITER]) s),
            t)
    /\ dispatched t = [frame]
    /\ ignored_logged t
       = match earlier with
         | [] => []
         | _ :: _ => [Z.of_nat (length earlier)]
         end
    /\ reads_issued t = 0
    /\ written t = (if fatal then [] else [res ++ [DATA_DELIMITER]])
    /\ notifications t
       = (if fatal then if closeConnection s then 1 else 0 else 0)
    /\ socket_operations t
       = (if fatal
          then if sock_ s
               then [sock_cancel; sock_shutdown_both; sock_close]
               else []
          else []).
Proof.
  intros Hc Hf Hr. destruct s as [c cc so rq rs]. cbn in Hc, Hr. subst c rq.
  cbn [res_ closeConnection sock_].
  destruct (handle handler frame rs) as [err res] eqn:Hh. cbn zeta.
  match goal with
  | |- context [set_res res ?s0] =>
      destruct (close_spec w (set_res res s0))
        as (tc & Hclose & Hio & Hn & Hs & Hi)
  end.
  cbn [set_res closeConnection sock_] in Hn, Hs.
  destruct (failed err) eqn:Ef; [|destruct (empty res) eqn:Ee];
    cbn [orb]; destruct earlier as [|e es]; eexists; (split; [
      unfold operator_call, request_handling; cbn [failed negb];
      rewrite factory_set, handler_valid; run_session;
      rewrite sregex_token_iterator_frames, skip_to_last_app, rbegin_wire
        by assumption;
      rewrite Z.add_0_l, counter_is_zero, Ascii.eqb_refl; cbn [negb];
      run_session; rewrite Hh; run_session;
      rewrite ?Ef, ?Ee; run_session; rewrite ?Hclose; 
      run_session; cbn [app]; reflexivity |]).
  all: trace_facts.
Qed.

(** A read completes on a buffer that ends with a partial segment: the
    segment replaces the buffer and the read is issued again. *)
Lemma read_completed_partial (s : SessionImp) (transfered : N)
      (frames : list std_string) (partial : std_string) :
  coro s = coro_at_read ->
  Forall no_delimiter frames -> no_delimiter partial -> partial <> [] ->
  req_ s = wire frames ++ partial ->
  exists t,
    operator_call w no_error transfered s
    = Some (tt, set_coro coro_at_read (set_req partial s), t)
    /\ dispatched t = [] /\ written t = [] /\ reads_issued t = 1
    /\ notifications t = 0 /\ socket_operations t = []
    /\ ignored_logged t
       = match frames with
         | [] => []
         | _ :: _ => [Z.of_nat (length frames)]
         end.
Proof.
  intros Hc Hf Hp Hn Hr. destruct s as [c cc so rq rs]. cbn in Hc, Hr.
  subst c rq.
  assert (Hlast : exists x, rbegin (wire frames ++ partial) = Some x
                            /\ Ascii.eqb x DATA_DELIMITER = false).
  { destruct partial as [|x p] using rev_ind; [congruence|].
    exists x. rewrite app_assoc, rbegin_app. split; [reflexivity|].
    apply Ascii.eqb_neq. intros ->.
    apply (rbegin_no_delimiter Hp). apply rbegin_app. }
  destruct Hlast as (x & Hx & Hd).
  destruct frames as [|e es]; eexists; (split; [
    unfold operator_call, request_handling; cbn [failed negb];
    rewrite factory_set, handler_valid; run_session;
    rewrite sregex_token_iterator_partial, skip_to_last_app, Hx
      by assumption;
    rewrite Z.add_0_l, counter_is_zero, Hd; cbn [negb];
    run_session; cbn [app]; reflexivity |]).
  all: trace_facts.
Qed.

End Processing.

(** A read completes and no handler factory is set. *)
Lemma read_completed_no_factory (w : Ambient) (s : SessionImp)
      (transfered : N) :
  coro s = coro_at_read ->
  getHandlerFactory w = None ->
  exists t,
    operator_call w no_error transfered s
    = Some (tt, set_coro coro_complete (after_close s), t)
    /\ no_io t
    /\ notifications t = (if closeConnection s then 1 else 0)
    /\ socket_operations t
       = (if sock_ s then [sock_cancel; sock_shutdown_both; sock_close]
          else []).
Proof.
  intros Hc Hw. destruct s as [c cc so rq rs]. cbn in Hc. subst c.
  match goal with
  | |- context [after_close ?s0] =>
      destruct (close_spec w s0) as (tc & Hclose & Hio & Hn & Hs & Hi)
  end.
  eexists; split; [
    unfold operator_call, request_handling; cbn [failed negb];
    rewrite Hw; run_session; rewrite Hclose; run_session; cbn [app];
    reflexivity |].
  trace_facts.
Qed.

(** A read completes and the factory gives no handler. *)
Lemma read_completed_invalid_handler (w : Ambient) (s : SessionImp)
      (transfered : N) (factory : AbstractHandlerFactory) :
  coro s = coro_at_read ->
  getHandlerFactory w = Some factory ->
  getRequestHandler factory = None ->
  exists t,
    operator_call w no_error transfered s
    = Some (tt, set_coro coro_complete (after_close s), t)
    /\ no_io t
    /\ notifications t = (if closeConnection s then 1 else 0)
    /\ socket_operations t
       = (if sock_ s then [sock_cancel; sock_shutdown_both; sock_close]
          else []).
Proof.
  intros Hc Hw Hh. destruct s as [c cc so rq rs]. cbn in Hc. subst c.
  match goal with
  | |- context [after_close ?s0] =>
      destruct (close_spec w s0) as (tc & Hclose & Hio & Hn & Hs & Hi)
  end.
  eexists; split; [
    unfold operator_call, request_handling; cbn [failed negb];
    rewrite Hw, Hh; run_session; rewrite Hclose; run_session; cbn [app];
    reflexivity |].
  trace_facts.
Qed.

(** A write completes: both buffers are cleared and the read is issued. *)
Lemma write_completed (w : Ambient) (s : SessionImp) (transfered : N) :
  coro s = coro_at_write ->
  operator_call w no_error transfered s
  = Some (tt, set_coro coro_at_read (set_res [] (set_req [] s)),
          [Log INFO (writed transfered); async_read_until]).
Proof.
  intros Hc. destruct s as [c cc so rq rs]. cbn in Hc. subst c. reflexivity.
Qed.

(** Once the coroutine is complete an activation does nothing. *)
Lemma completed (w : Ambient) (s : SessionImp) (transfered : N) :
  coro s = coro_complete ->
  operator_call w no_error transfered s = Some (tt, s, []).
Proof.
  intros Hc. destruct s as [c cc so rq rs]. cbn in Hc. subst c. reflexivity.
Qed.

(* --------------------------------------------------------------------- *)
(** ** RequestHandler::handle                                             *)
(* --------------------------------------------------------------------- *)

Section RequestHandlerProperties.
Context {C : hl.Collaborators}.

(** C5. For every input frame [handle] returns the default-constructed,
    non-failing error code: on the parse-failure path, on the
    unresolvable-tokenizer path and on the normal path alike.  Failures of
    the payload only show in the response object that is serialised. *)
Theorem handle_never_reports_transport_error
        (request response : std_string) :
  fst (hl.handle request response) = no_error
  /\ failed (fst (hl.handle request response)) = false.
Proof.
  unfold hl.handle.
  destruct (hl.RequestObject_ctor request) as [requestObject | what].
  - destruct (hl.getTokenizer (hl.RequestObject.buf_type requestObject))
      as [tokenizer|].
    + destruct (hl.tokenize _ _ _ _) as [status tokens]. now split.
    + now split.
  - now split.
Qed.

(** C6. When the frame does not parse into a request, the response that
    is serialised has sequence number 0, identifier 0, empty type, empty
    name, the failure status, the parse error text as message and no
    result item; the text is not empty, parse errors being descriptive;
    the returned code is the non-failing one. *)
Theorem malformed_request_response
        (request what response : std_string) :
  hl.descriptive_parse_errors C ->
  hl.RequestObject_ctor request = inr what ->
  hl.handle request response
  = (no_error,
     hl.dump (hl.ResponseObject.make 0 0 [] [] hl.FAILURE_CODE what [])
             response)
  /\ what <> []
  /\ failed (fst (hl.handle request response)) = false.
Proof.
  intros D E. unfold hl.handle. rewrite E. cbn.
  repeat split. now apply (D request).
Qed.

(** C8. When the frame parses and a tokenizer exists for its type, the
    response echoes the sequence number, identifier, type and name of the
    request and carries exactly the tokens the tokenizer produced, in
    their order; an empty status text gives the success status and an
    empty message, a non-empty one gives the failure status with that
    text as message. *)
Theorem processor_status_mapping
        (request response : std_string)
        (requestObject : hl.RequestObject.t hl.AdditionalInfo)
        (tokenizer : hl.Tokenizer)
        (status : std_string) (tokens : list hl.Token) :
  hl.RequestObject_ctor request = inl requestObject ->
  hl.getTokenizer (hl.RequestObject.buf_type requestObject)
  = Some tokenizer ->
  hl.tokenize tokenizer
              (hl.RequestObject.buf_name requestObject)
              (hl.RequestObject.buf_body requestObject)
              (hl.RequestObject.additional_info requestObject)
  = (status, tokens) ->
  (status = [] ->
   hl.handle request response
   = (no_error,
      hl.dump (hl.ResponseObject.make
                 (hl.RequestObject.msg_num requestObject)
                 (hl.RequestObject.id requestObject)
                 (hl.RequestObject.buf_type requestObject)
                 (hl.RequestObject.buf_name requestObject)
                 hl.SUCCESS_CODE [] tokens)
              response))
  /\ (status <> [] ->
      hl.handle request response
      = (no_error,
         hl.dump (hl.ResponseObject.make
                    (hl.RequestObject.msg_num requestObject)
                    (hl.RequestObject.id requestObject)
                    (hl.RequestObject.buf_type requestObject)
                    (hl.RequestObject.buf_name requestObject)
                    hl.FAILURE_CODE status tokens)
                 response)).
Proof.
  intros E G T. unfold hl.handle. rewrite E, G, T. split.
  - intros ->. reflexivity.
  - intros N. destruct status; [congruence | reflexivity].
Qed.

End RequestHandlerProperties.

Lemma malformed_request_response_witness :
  hl.descriptive_parse_errors Demo.collaborators
  /\ @hl.RequestObject_ctor Demo.collaborators [] = inr (lit "empty request")
  /\ @hl.handle Demo.collaborators [] []
     = (no_error,
        @hl.dump Demo.collaborators (hl.ResponseObject.make 0 0 [] [] hl.FAILURE_CODE
                                        (lit "empty request") [])
                [])
  /\ lit "empty request" <> []
  /\ failed (fst (@hl.handle Demo.collaborators [] [])) = false.
Proof.
  assert (D : hl.descriptive_parse_errors Demo.collaborators).
  { intros request what. cbn. unfold Demo.parse.
    destruct request; [|discriminate]. intros E. injection E as <-.
    discriminate. }
  split; [exact D|]. split; [reflexivity|].
  exact (@malformed_request_response Demo.collaborators
           [] (lit "empty request") [] D eq_refl).
Defined.

Lemma processor_status_mapping_witness :
  (lit "bad input" <> [] ->
   @hl.handle Demo.collaborators (lit "sabc") []
   = (no_error,
      @hl.dump Demo.collaborators (hl.ResponseObject.make 4 7 (lit "s") (lit "main.c")
                                      hl.FAILURE_CODE (lit "bad input")
                                      (lit "a"))
              []))
  /\ @hl.handle Demo.collaborators (lit "labc") [] = (no_error, lit "ok abc").
Proof.
  split.
  - exact (proj2 (@processor_status_mapping Demo.collaborators
                    (lit "sabc") [] _ Demo.strict (lit "bad input") (lit "a")
                    eq_refl eq_refl eq_refl)).
  - exact (proj1 (@processor_status_mapping Demo.collaborators
                    (lit "labc") [] _ Demo.letters [] (lit "abc")
                    eq_refl eq_refl eq_refl) eq_refl).
Defined.

(* --------------------------------------------------------------------- *)
(** ** close() twice                                                      *)
(* --------------------------------------------------------------------- *)

(** C9. Two calls of [close()] in sequence on a session whose owner is
    attached to the close signal: the owner is notified once, by the first
    call; the second call is defined, leaves the object as it is and does
    nothing but log that it was called: no socket operation, no
    notification. *)
Theorem close_is_idempotent (w1 w2 : Ambient) (s : SessionImp) :
  closeConnection s = true ->
  exists t1 t2 s1,
    close w1 s = Some (tt, s1, t1)
    /\ close w2 s1 = Some (tt, s1, t2)
    /\ closed s1
    /\ notifications (t1 ++ t2) = 1
    /\ notifications t1 = 1
    /\ notifications t2 = 0
    /\ socket_operations t2 = []
    /\ t2 = [Log DEBUG try_close_session].
Proof.
  intros Hc. destruct (close_spec w1 s) as (t1 & H1 & _ & Hn & _).
  rewrite Hc in Hn.
  exists t1, [Log DEBUG try_close_session], (after_close s).
  repeat split; try assumption.
  unfold notifications in *. rewrite filter_app, length_app, Hn. reflexivity.
Qed.

Lemma close_is_idempotent_witness :
  closeConnection (SessionImp_new true) = true
  /\ exists t1 t2 s1,
      close Demo.ambient (SessionImp_new true) = Some (tt, s1, t1)
      /\ close Demo.ambient s1 = Some (tt, s1, t2)
      /\ closed s1
      /\ notifications (t1 ++ t2) = 1
      /\ notifications t1 = 1
      /\ notifications t2 = 0
      /\ socket_operations t2 = []
      /\ t2 = [Log DEBUG try_close_session].
Proof.
  split; [reflexivity|].
  exact (close_is_idempotent Demo.ambient Demo.ambient
                             (SessionImp_new true) eq_refl).
Defined.

(* --------------------------------------------------------------------- *)
(** ** No handler                                                         *)
(* --------------------------------------------------------------------- *)

(** C10. When a read has completed and [Context::getHandlerFactory()] is
    null, or the factory's [getRequestHandler()] is null, the session
    closes at once: nothing is dispatched, nothing is written, no read is
    issued, the socket is released, the owner is detached, the coroutine is
    complete and a later activation does nothing. *)
Theorem missing_handler_closes (w : Ambient) (s : SessionImp)
        (transfered : N) :
  coro s = coro_at_read ->
  (getHandlerFactory w = None
   \/ exists factory, getHandlerFactory w = Some factory
                      /\ getRequestHandler factory = None) ->
  exists t s1,
    operator_call w no_error transfered s = Some (tt, s1, t)
    /\ dispatched t = [] /\ written t = [] /\ reads_issued t = 0
    /\ closed s1 /\ coro s1 = coro_complete
    /\ notifications t = (if closeConnection s then 1 else 0)
    /\ forall w' n, operator_call w' no_error n s1 = Some (tt, s1, []).
Proof.
  intros Hc [Hw | (factory & Hw & Hh)];
    [ destruct (read_completed_no_factory w s transfered Hc Hw)
        as (t & Hop & (Hd & Hwr & Hr) & Hn & _)
    | destruct (read_completed_invalid_handler w s transfered Hc Hw Hh)
        as (t & Hop & (Hd & Hwr & Hr) & Hn & _) ];
    exists t, (set_coro coro_complete (after_close s));
    repeat split; try assumption; intros; now apply completed.
Qed.

Lemma missing_handler_closes_witness :
  coro (Demo.reading (lit "lA" ++ Demo.nl)) = coro_at_read
  /\ getHandlerFactory Demo.ambient_without_factory = None
  /\ exists t s1,
      operator_call Demo.ambient_without_factory no_error 3
                    (Demo.reading (lit "lA" ++ Demo.nl))
      = Some (tt, s1, t)
      /\ dispatched t = [] /\ written t = [] /\ reads_issued t = 0
      /\ closed s1 /\ coro s1 = coro_complete
      /\ notifications t = 1
      /\ forall w' n, operator_call w' no_error n s1 = Some (tt, s1, []).
Proof.
  split; [reflexivity|]. split; [reflexivity|].
  exact (missing_handler_closes Demo.ambient_without_factory
           (Demo.reading (lit "lA" ++ Demo.nl)) 3 eq_refl
           (or_introl eq_refl)).
Defined.

(* --------------------------------------------------------------------- *)
(** ** Dispatch of a complete frame                                       *)
(* --------------------------------------------------------------------- *)

(** C4. A read has completed on a buffer whose last byte is the delimiter
    and a handler is available.  The handler is invoked on one frame.  If
    it returns a failing code or leaves the output buffer empty, the session
    closes: socket released, owner detached, coroutine complete, nothing
    written, no read issued, later activations do nothing.  Otherwise the
    step does not close anything and issues the write of the response
    followed by one delimiter. *)
Theorem fatal_dispatch_outcomes
        (w : Ambient) (factory : AbstractHandlerFactory)
        (handler : AbstractRequestHandler)
        (s : SessionImp) (transfered : N) :
  getHandlerFactory w = Some factory ->
  getRequestHandler factory = Some handler ->
  coro s = coro_at_read ->
  rbegin (req_ s) = Some DATA_DELIMITER ->
  exists frame t s1,
    operator_call w no_error transfered s = Some (tt, s1, t)
    /\ dispatched t = [frame]
    /\ (failed (fst (handle handler frame (res_ s))) = true
        \/ snd (handle handler frame (res_ s)) = [] ->
        closed s1 /\ coro s1 = coro_complete
        /\ written t = [] /\ reads_issued t = 0
        /\ forall w' n, operator_call w' no_error n s1 = Some (tt, s1, []))
    /\ (failed (fst (handle handler frame (res_ s))) = false
        /\ snd (handle handler frame (res_ s)) <> [] ->
        sock_ s1 = sock_ s /\ closeConnection s1 = closeConnection s
        /\ coro s1 = coro_at_write
        /\ res_ s1 = snd (handle handler frame (res_ s)) ++ [DATA_DELIMITER]
        /\ written t
           = [snd (handle handler frame (res_ s)) ++ [DATA_DELIMITER]]
        /\ reads_issued t = 0
        /\ socket_operations t = [] /\ notifications t = 0).
Proof.
  intros Hw Hh Hc R.
  destruct (delimiter_terminated _ R) as (earlier & frame & Hf & Hr & _).
  pose proof (@read_completed_frames w factory handler Hw Hh s transfered
                                      earlier frame Hc Hf Hr)
    as H.
  exists frame.
  destruct (handle handler frame (res_ s)) as [err res]. cbn zeta in H.
  destruct H as (t & Hop & Hd & _ & Hrd & Hwr & Hn & Hs).
  exists t. eexists. split; [exact Hop|]. split; [exact Hd|].
  cbn [fst snd]. split.
  - intros F.
    assert (E : failed err || empty res = true).
    { destruct F as [-> | ->]; [reflexivity | apply orb_true_r]. }
    rewrite E in *. repeat split; assumption.
  - intros (F & N).
    assert (E : failed err || empty res = false).
    { rewrite F. cbn. destruct res; [congruence | reflexivity]. }
    rewrite E in *. repeat split; assumption.
Qed.

Lemma fatal_dispatch_outcomes_witness :
  getHandlerFactory Demo.ambient
  = Some {| getRequestHandler := Some Demo.handler |}
  /\ getRequestHandler {| getRequestHandler := Some Demo.handler |}
     = Some Demo.handler
  /\ coro (Demo.reading (lit "lA" ++ Demo.nl)) = coro_at_read
  /\ rbegin (req_ (Demo.reading (lit "lA" ++ Demo.nl)))
     = Some DATA_DELIMITER
  /\ exists frame t s1,
      operator_call Demo.ambient no_error 3
                    (Demo.reading (lit "lA" ++ Demo.nl))
      = Some (tt, s1, t)
      /\ dispatched t = [frame].
Proof.
  repeat (split; [reflexivity|]).
  destruct (fatal_dispatch_outcomes
              Demo.ambient (factory := {| getRequestHandler := Some Demo.handler |})
              (Demo.reading (lit "lA" ++ Demo.nl)) 3
              eq_refl eq_refl eq_refl eq_refl)
    as (frame & t & s1 & Hop & Hd & _).
  exists frame, t, s1. split; assumption.
Defined.

(* --------------------------------------------------------------------- *)
(** ** Coalescing                                                         *)
(* --------------------------------------------------------------------- *)

(** C1, the claim as stated fails on a buffer that holds one frame: the
    frame is dispatched, the count of earlier frames is 0, and no "was
    ignored" line is logged at all (Session.cpp, line 118, logs the count
    only when it is not 0). *)
Lemma single_frame_logs_no_ignored_count :
  exists s1 t,
    operator_call Demo.ambient no_error 3 (Demo.reading (lit "lA" ++ Demo.nl))
    = Some (tt, s1, t)
    /\ dispatched t = [lit "lA"]
    /\ ignored_logged t = []
    /\ ignored_logged t <> [0%Z].
Proof.
  do 2 eexists. split; [reflexivity|]. repeat split. discriminate.
Qed.

(** C1, amended.  A read has completed on a buffer whose last byte is the
    delimiter and a handler is available.  The buffer is the wire form of
    n+1 frames; exactly the last one is handed to the handler; the count n
    of the earlier ones is logged as ignored when n > 0 and nothing is
    logged as ignored when n = 0; no read is issued by this step; when the
    handler's answer is not fatal the response is written, and once that
    write completes both buffers are empty and the next read is issued. *)
Theorem coalescing
        (w : Ambient) (factory : AbstractHandlerFactory)
        (handler : AbstractRequestHandler)
        (s : SessionImp) (transfered : N) :
  getHandlerFactory w = Some factory ->
  getRequestHandler factory = Some handler ->
  coro s = coro_at_read ->
  rbegin (req_ s) = Some DATA_DELIMITER ->
  exists earlier frame t s1,
    Forall no_delimiter (earlier ++ [frame])
    /\ req_ s = wire (earlier ++ [frame])
    /\ operator_call w no_error transfered s = Some (tt, s1, t)
    /\ dispatched t = [frame]
    /\ ignored_logged t
       = match earlier with
         | [] => []
         | _ :: _ => [Z.of_nat (length earlier)]
         end
    /\ reads_issued t = 0
    /\ (failed (fst (handle handler frame (res_ s))) = false ->
        snd (handle handler frame (res_ s)) <> [] ->
        coro s1 = coro_at_write
        /\ written t
           = [snd (handle handler frame (res_ s)) ++ [DATA_DELIMITER]])
    /\ (coro s1 = coro_at_write ->
        forall w' n unsent,
        exists s2 t2,
          operator_call w' no_error n (set_res unsent s1)
          = Some (tt, s2, t2)
          /\ req_ s2 = [] /\ res_ s2 = []
          /\ coro s2 = coro_at_read /\ reads_issued t2 = 1
          /\ dispatched t2 = []).
Proof.
  intros Hw Hh Hc R.
  destruct (delimiter_terminated _ R) as (earlier & frame & Hf & Hr & _).
  pose proof (@read_completed_frames w factory handler Hw Hh s transfered
                                      earlier frame Hc Hf Hr) as H.
  exists earlier, frame.
  destruct (handle handler frame (res_ s)) as [err res]. cbn zeta in H.
  destruct H as (t & Hop & Hd & Hi & Hrd & Hwr & _).
  exists t. eexists. repeat (split; [eassumption|]). cbn [fst snd]. split.
  - intros F N.
    assert (E : failed err || empty res = false).
    { rewrite F. cbn. destruct res; [congruence | reflexivity]. }
    rewrite E in *. split; [reflexivity | assumption].
  - intros Hc1 w' n unsent. do 2 eexists. split.
    + apply write_completed. destruct (failed err || empty res); exact Hc1.
    + repeat split.
Qed.

Lemma coalescing_witness :
  getHandlerFactory Demo.ambient
  = Some {| getRequestHandler := Some Demo.handler |}
  /\ getRequestHandler {| getRequestHandler := Some Demo.handler |}
     = Some Demo.handler
  /\ coro (Demo.reading (lit "lA" ++ Demo.nl ++ lit "lB" ++ Demo.nl
                           ++ lit "lC" ++ Demo.nl)) = coro_at_read
  /\ rbegin (req_ (Demo.reading (lit "lA" ++ Demo.nl ++ lit "lB" ++ Demo.nl
                                   ++ lit "lC" ++ Demo.nl)))
     = Some DATA_DELIMITER
  /\ exists (earlier : list std_string) frame t s1,
      operator_call Demo.ambient no_error 3
        (Demo.reading (lit "lA" ++ Demo.nl ++ lit "lB" ++ Demo.nl
                         ++ lit "lC" ++ Demo.nl))
      = Some (tt, s1, t)
      /\ dispatched t = [frame]
      /\ ignored_logged t
         = match earlier with
           | [] => []
           | _ :: _ => [Z.of_nat (length earlier)]
           end.
Proof.
  repeat (split; [reflexivity|]).
  destruct (coalescing
              Demo.ambient
              (factory := {| getRequestHandler := Some Demo.handler |})
              (Demo.reading (lit "lA" ++ Demo.nl ++ lit "lB" ++ Demo.nl
                               ++ lit "lC" ++ Demo.nl)) 3
              eq_refl eq_refl eq_refl eq_refl)
    as (earlier & frame & t & s1 & _ & _ & Hop & Hd & Hi & _).
  exists earlier, frame, t, s1. repeat split; assumption.
Defined.

(** The three frames of the specification's example: the last is
    dispatched and 2 are logged as ignored. *)
Example coalescing_ABC :
  exists s1 t,
    operator_call Demo.ambient no_error 3
      (Demo.reading (lit "lA" ++ Demo.nl ++ lit "lB" ++ Demo.nl
                       ++ lit "lC" ++ Demo.nl))
    = Some (tt, s1, t)
    /\ dispatched t = [lit "lC"]
    /\ ignored_logged t = [2%Z]
    /\ written t = [lit "ok C" ++ Demo.nl].
Proof. do 2 eexists. split; [reflexivity|]. repeat split. Qed.

(* --------------------------------------------------------------------- *)
(** ** The dispatched segment can be empty                                *)
(* --------------------------------------------------------------------- *)

(** C3, the claim as stated fails on the buffer that is the single
    delimiter byte: the token before the delimiter is the empty text, and
    it is handed to the handler. *)
Lemma lone_delimiter_dispatches_empty_segment :
  rbegin (req_ (Demo.reading Demo.nl)) = Some DATA_DELIMITER
  /\ exists s1 t,
      operator_call Demo.ambient no_error 1 (Demo.reading Demo.nl)
      = Some (tt, s1, t)
      /\ dispatched t = [[]].
Proof.
  split; [reflexivity|]. do 2 eexists. split; reflexivity.
Qed.

(** C3, amended.  A read has completed on a buffer whose last byte is the
    delimiter and a handler is available.  The segment handed to the
    handler is the text between the final delimiter and the delimiter
    before it (or the start of the buffer): the empty text after the final
    delimiter is never what is dispatched.  The segment is empty exactly
    when the buffer is the single delimiter or ends with two delimiters. *)
Theorem dispatched_segment
        (w : Ambient) (factory : AbstractHandlerFactory)
        (handler : AbstractRequestHandler)
        (s : SessionImp) (transfered : N) :
  getHandlerFactory w = Some factory ->
  getRequestHandler factory = Some handler ->
  coro s = coro_at_read ->
  rbegin (req_ s) = Some DATA_DELIMITER ->
  exists before segment t s1,
    operator_call w no_error transfered s = Some (tt, s1, t)
    /\ dispatched t = [segment]
    /\ req_ s = before ++ segment ++ [DATA_DELIMITER]
    /\ no_delimiter segment
    /\ (before = [] \/ rbegin before = Some DATA_DELIMITER)
    /\ (segment = [] <->
        req_ s = [DATA_DELIMITER]
        \/ exists b, req_ s = b ++ [DATA_DELIMITER; DATA_DELIMITER]).
Proof.
  intros Hw Hh Hc R.
  destruct (delimiter_terminated _ R) as (earlier & frame & Hf & Hr & _).
  pose proof (@read_completed_frames w factory handler Hw Hh s transfered
                                      earlier frame Hc Hf Hr) as H.
  destruct (handle handler frame (res_ s)) as [err res]. cbn zeta in H.
  destruct H as (t & Hop & Hd & _).
  assert (Hreq : req_ s = wire earlier ++ frame ++ [DATA_DELIMITER]).
  { rewrite Hr. unfold wire. rewrite map_app, concat_app. cbn.
    now rewrite app_nil_r. }
  assert (Hframe : no_delimiter frame).
  { apply Forall_app in Hf. destruct Hf as [_ Hf]. now inversion Hf. }
  assert (Hbefore : wire earlier = [] \/ rbegin (wire earlier)
                                         = Some DATA_DELIMITER).
  { destruct earlier as [|e es] using rev_ind; [now left | right].
    apply rbegin_wire. }
  exists (wire earlier), frame, t. eexists.
  repeat (split; [eassumption|]). split.
  - intros ->. rewrite Hreq. cbn [app].
    destruct Hbefore as [-> | Hb]; [now left | right].
    destruct (wire earlier) as [|x b] using rev_ind; [discriminate|].
    rewrite rbegin_app in Hb. injection Hb as ->.
    exists b. now rewrite <- app_assoc.
  - rewrite Hreq. intros [E | (b & E)].
    + destruct (wire earlier) as [|x b]; cbn in E.
      * destruct frame; [reflexivity|]. cbn in E. injection E as _ E.
        now destruct frame.
      * injection E as _ E. destruct b; cbn in E; [|destruct b]; 
          destruct frame; discriminate.
    + destruct frame as [|x f] using rev_ind; [reflexivity|]. exfalso.
      change [DATA_DELIMITER; DATA_DELIMITER]
        with ([DATA_DELIMITER] ++ [DATA_DELIMITER]) in E.
      rewrite !app_assoc in E. apply app_inj_tail in E. destruct E as [E _].
      apply app_inj_tail in E. destruct E as [_ ->].
      apply Forall_app in Hframe. destruct Hframe as [_ Hx].
      inversion Hx as [|? ? Hd' _]. discriminate.
Qed.

Lemma dispatched_segment_witness :
  getHandlerFactory Demo.ambient
  = Some {| getRequestHandler := Some Demo.handler |}
  /\ getRequestHandler {| getRequestHandler := Some Demo.handler |}
     = Some Demo.handler
  /\ coro (Demo.reading (lit "lA" ++ Demo.nl ++ Demo.nl)) = coro_at_read
  /\ rbegin (req_ (Demo.reading (lit "lA" ++ Demo.nl ++ Demo.nl)))
     = Some DATA_DELIMITER
  /\ exists before segment t s1,
      operator_call Demo.ambient no_error 3
        (Demo.reading (lit "lA" ++ Demo.nl ++ Demo.nl))
      = Some (tt, s1, t)
      /\ dispatched t = [segment]
      /\ req_ (Demo.reading (lit "lA" ++ Demo.nl ++ Demo.nl))
         = before ++ segment ++ [DATA_DELIMITER].
Proof.
  repeat (split; [reflexivity|]).
  destruct (dispatched_segment
              Demo.ambient
              (factory := {| getRequestHandler := Some Demo.handler |})
              (Demo.reading (lit "lA" ++ Demo.nl ++ Demo.nl)) 3
              eq_refl eq_refl eq_refl eq_refl)
    as (before & segment & t & s1 & Hop & Hd & Hr & _).
  exists before, segment, t, s1. repeat split; assumption.
Defined.

(* --------------------------------------------------------------------- *)
(** ** Partial retention                                                  *)
(* --------------------------------------------------------------------- *)

(** C2, the claim as stated fails in its last clause on a buffer that
    holds one complete frame: the frame is dispatched and the write is
    issued, and after this processing step the read buffer still holds
    the whole frame with its delimiter, which is neither nothing nor the
    trailing partial segment (empty here).  Session.cpp clears [req_] at
    line 165 only, once the write has completed. *)
Lemma dispatching_step_keeps_the_buffer :
  exists s1 t,
    operator_call Demo.ambient no_error 3 (Demo.reading (lit "lA" ++ Demo.nl))
    = Some (tt, s1, t)
    /\ dispatched t = [lit "lA"]
    /\ req_ s1 = lit "lA" ++ Demo.nl
    /\ req_ s1 <> []
    /\ req_ s1 <> snd (split_frames (lit "lA" ++ Demo.nl)).
Proof.
  do 2 eexists. split; [reflexivity|]. repeat split; discriminate.
Qed.

(** C2, amended.  A read has completed on a buffer whose last byte is not
    the delimiter.  Nothing is dispatched and nothing is written; when a
    handler is available the read buffer becomes exactly the trailing
    partial segment (the text after the last delimiter, which the
    specification's splitter gives as well) and the read is issued again.
    Hence whenever the session issues a read after processing a non-empty
    buffer, the read buffer holds the trailing partial segment (when the
    read is issued at once) or nothing (when it is issued after the write
    of a response has completed).  A step that dispatches leaves the read
    buffer as it was until the write completes; a step that closes the
    session leaves it as it was and issues no read. *)
Theorem partial_retention :
  (forall (w : Ambient) (s : SessionImp) (transfered : N) (c : ascii),
      coro s = coro_at_read ->
      rbegin (req_ s) = Some c -> c <> DATA_DELIMITER ->
      exists discarded partial t s1,
        req_ s = discarded ++ partial
        /\ no_delimiter partial /\ partial <> []
        /\ (discarded = [] \/ rbegin discarded = Some DATA_DELIMITER)
        /\ partial = snd (split_frames (req_ s))
        /\ operator_call w no_error transfered s = Some (tt, s1, t)
        /\ dispatched t = [] /\ written t = []
        /\ (forall factory handler,
               getHandlerFactory w = Some factory ->
               getRequestHandler factory = Some handler ->
               s1 = set_coro coro_at_read (set_req partial s)
               /\ reads_issued t = 1))
  /\ (forall (w : Ambient) (factory : AbstractHandlerFactory)
             (handler : AbstractRequestHandler)
             (s : SessionImp) (transfered : N) (c : ascii),
         getHandlerFactory w = Some factory ->
         getRequestHandler factory = Some handler ->
         coro s = coro_at_read ->
         rbegin (req_ s) = Some c ->
         exists t s1,
           operator_call w no_error transfered s = Some (tt, s1, t)
           /\ ((coro s1 = coro_at_read /\ reads_issued t = 1
                /\ req_ s1 = snd (split_frames (req_ s)))
               \/ (coro s1 = coro_at_write /\ reads_issued t = 0
                   /\ req_ s1 = req_ s
                   /\ forall w' n unsent,
                     exists s2 t2,
                       operator_call w' no_error n (set_res unsent s1)
                       = Some (tt, s2, t2)
                       /\ coro s2 = coro_at_read /\ reads_issued t2 = 1
                       /\ req_ s2 = [])
               \/ (coro s1 = coro_complete /\ closed s1
                   /\ reads_issued t = 0 /\ req_ s1 = req_ s))).
Proof.
  refine ((fun A => conj A _) _).
  { intros w factory handler s transfered c Hw Hh Hc R.
    destruct (Ascii.eqb_spec c DATA_DELIMITER) as [-> | N].
    - destruct (delimiter_terminated _ R) as (earlier & frame & Hf & Hr & _).
      pose proof (@read_completed_frames w factory handler Hw Hh s transfered
                                          earlier frame Hc Hf Hr) as H.
      destruct (handle handler frame (res_ s)) as [err res]. cbn zeta in H.
      destruct H as (t & Hop & _ & _ & Hrd & _).
      exists t. eexists. split; [exact Hop|]. right.
      destruct (failed err || empty res).
      + right. repeat split. exact Hrd.
      + left. split; [reflexivity|]. split; [exact Hrd|].
        split; [reflexivity|].
        intros w' n unsent. do 2 eexists. split.
        * now apply write_completed.
        * repeat split.
    - destruct (A w s transfered c Hc R N)
        as (discarded & partial & t & s1 & _ & _ & _ & _ & Hsnd & Hop & _ & _
            & Hs1).
      destruct (Hs1 factory handler Hw Hh) as [-> Hrd].
      exists t. eexists. split; [exact Hop|]. left.
      repeat split; assumption. }
  intros w s transfered c Hc R N.
  destruct (not_delimiter_terminated _ R N)
    as (frames & partial & Hfs & Hp & Hne & Hr & Hsplit).
  exists (wire frames), partial.
  assert (Hdisc : wire frames = [] \/ rbegin (wire frames)
                                      = Some DATA_DELIMITER).
  { destruct frames as [|e es] using rev_ind; [now left | right].
    apply rbegin_wire. }
  assert (Hsnd : partial = snd (split_frames (req_ s)))
    by now rewrite Hsplit.
  destruct (getHandlerFactory w) as [factory|] eqn:Hw;
    [destruct (getRequestHandler factory) as [handler|] eqn:Hh|].
  - destruct (@read_completed_partial w factory handler Hw Hh s transfered
                frames partial Hc Hfs Hp Hne Hr)
      as (t & Hop & Hd & Hwr & Hrd & _).
    exists t. eexists. repeat (split; [eassumption|]).
    intros ? ? _ _. split; [reflexivity | assumption].
  - destruct (read_completed_invalid_handler w s transfered Hc Hw Hh)
      as (t & Hop & (Hd & Hwr & Hrd) & _).
    exists t. eexists. repeat (split; [eassumption|]).
    intros f h E1 E2. injection E1 as <-. congruence.
  - destruct (read_completed_no_factory w s transfered Hc Hw)
      as (t & Hop & (Hd & Hwr & Hrd) & _).
    exists t. eexists. repeat (split; [eassumption|]).
    intros f h E1. discriminate.
Qed.

(** The example of the specification: the two complete frames are dropped,
    the buffer becomes [PART]; the rest of the frame then gives one
    dispatch of [PARTIAL]. *)
Example partial_retention_PART :
  exists s1 t1 s2 t2,
    operator_call Demo.ambient no_error 3
      (Demo.reading (lit "lA" ++ Demo.nl ++ lit "lB" ++ Demo.nl
                       ++ lit "lPART"))
    = Some (tt, s1, t1)
    /\ dispatched t1 = [] /\ written t1 = [] /\ req_ s1 = lit "lPART"
    /\ ignored_logged t1 = [2%Z]
    /\ operator_call Demo.ambient no_error 9
                     (received (lit "IAL" ++ Demo.nl) s1)
       = Some (tt, s2, t2)
    /\ dispatched t2 = [lit "lPARTIAL"].
Proof.
  do 4 eexists. split; [reflexivity|]. repeat split.
Qed.

Lemma partial_retention_witness :
  coro (Demo.reading (lit "lA" ++ Demo.nl ++ lit "lPART")) = coro_at_read
  /\ rbegin (req_ (Demo.reading (lit "lA" ++ Demo.nl ++ lit "lPART")))
     = Some "T"%char
  /\ "T"%char <> DATA_DELIMITER
  /\ exists discarded partial t s1,
      req_ (Demo.reading (lit "lA" ++ Demo.nl ++ lit "lPART"))
      = discarded ++ partial
      /\ partial
         = snd (split_frames
                  (req_ (Demo.reading (lit "lA" ++ Demo.nl ++ lit "lPART"))))
      /\ operator_call Demo.ambient no_error 3
           (Demo.reading (lit "lA" ++ Demo.nl ++ lit "lPART"))
         = Some (tt, s1, t)
      /\ dispatched t = [] /\ written t = [].
Proof.
  split; [reflexivity|]. split; [reflexivity|]. split; [discriminate|].
  destruct (proj1 partial_retention Demo.ambient
              (Demo.reading (lit "lA" ++ Demo.nl ++ lit "lPART")) 3%N
              "T"%char eq_refl eq_refl)
    as (discarded & partial & t & s1 & Hr & _ & _ & _ & Hp & Hop & Hd & Hw
        & _).
  - discriminate.
  - exists discarded, partial, t, s1. repeat split; assumption.
Defined.

(* --------------------------------------------------------------------- *)
(** ** A request of an unknown type, through the session                  *)
(* --------------------------------------------------------------------- *)

(** C7. When the frame parses and the registry has no tokenizer for its
    type, [handle] returns the non-failing code and serialises a response
    that echoes the sequence number, identifier, type and name of the
    request, with the failure status, the message "couldn't get tokenizer
    for buffer type: " followed by the type, and no result item.  A
    session whose handler this is does not close on such a frame: provided
    the serialised response is not empty, it keeps its socket and its
    owner and issues the write of the response. *)
Theorem unknown_type_response
        (C : hl.Collaborators) (request response : std_string)
        (requestObject : hl.RequestObject.t hl.AdditionalInfo) :
  hl.RequestObject_ctor request = inl requestObject ->
  hl.getTokenizer (hl.RequestObject.buf_type requestObject) = None ->
  let responseObject :=
    hl.ResponseObject.make
      (hl.RequestObject.msg_num requestObject)
      (hl.RequestObject.id requestObject)
      (hl.RequestObject.buf_type requestObject)
      (hl.RequestObject.buf_name requestObject)
      hl.FAILURE_CODE
      (lit "couldn't get tokenizer for buffer type: "
           ++ hl.RequestObject.buf_type requestObject)
      [] in
  hl.handle request response = (no_error, hl.dump responseObject response)
  /\ forall (w : Ambient) (factory : AbstractHandlerFactory)
            (s : SessionImp) (transfered : N)
            (earlier : list std_string),
      getHandlerFactory w = Some factory ->
      getRequestHandler factory = Some {| handle := hl.handle |} ->
      coro s = coro_at_read ->
      Forall no_delimiter (earlier ++ [request]) ->
      req_ s = wire (earlier ++ [request]) ->
      hl.dump responseObject (res_ s) <> [] ->
      exists t s1,
        operator_call w no_error transfered s = Some (tt, s1, t)
        /\ dispatched t = [request]
        /\ written t = [hl.dump responseObject (res_ s) ++ [DATA_DELIMITER]]
        /\ coro s1 = coro_at_write
        /\ sock_ s1 = sock_ s /\ closeConnection s1 = closeConnection s
        /\ socket_operations t = [] /\ notifications t = 0.
Proof.
  intros E G responseObject.
  assert (H : forall r, hl.handle request r
                        = (no_error, hl.dump responseObject r)).
  { intros r. unfold hl.handle. now rewrite E, G. }
  split; [apply H|].
  intros w factory s transfered earlier Hw Hh Hc Hf Hr Hne.
  pose proof (@read_completed_frames w factory {| handle := hl.handle |}
                Hw Hh s transfered earlier request Hc Hf Hr) as P.
  cbn [handle] in P. rewrite H in P. cbn zeta in P.
  assert (Ee : failed no_error || empty (hl.dump responseObject (res_ s))
               = false).
  { cbn. destruct (hl.dump responseObject (res_ s));
      [congruence | reflexivity]. }
  rewrite Ee in P. destruct P as (t & Hop & Hd & _ & _ & Hwr & Hn & Hs).
  exists t. eexists. repeat (split; [eassumption|]). repeat split; assumption.
Qed.

Lemma unknown_type_response_witness :
  @hl.RequestObject_ctor Demo.collaborators (lit "xyz")
  = inl (hl.RequestObject.make 4 7 (lit "x") (lit "main.c") (lit "yz") tt)
  /\ @hl.getTokenizer Demo.collaborators (lit "x") = None
  /\ @hl.handle Demo.collaborators (lit "xyz") []
     = (no_error, lit "error couldn't get tokenizer for buffer type: x")
  /\ exists t s1,
      operator_call Demo.ambient no_error 4
                    (Demo.reading (lit "xyz" ++ Demo.nl))
      = Some (tt, s1, t)
      /\ dispatched t = [lit "xyz"]
      /\ written t
         = [lit "error couldn't get tokenizer for buffer type: x"
                ++ Demo.nl]
      /\ coro s1 = coro_at_write
      /\ sock_ s1 = true /\ closeConnection s1 = true
      /\ socket_operations t = [] /\ notifications t = 0.
Proof.
  split; [reflexivity|]. split; [reflexivity|].
  destruct (@unknown_type_response Demo.collaborators (lit "xyz") []
              (hl.RequestObject.make 4 7 (lit "x") (lit "main.c")
                                     (lit "yz") tt)
              eq_refl eq_refl) as [H S].
  split; [exact H|].
  refine (S Demo.ambient {| getRequestHandler := Some Demo.handler |}
            (Demo.reading (lit "xyz" ++ Demo.nl)) 4%N []
            eq_refl eq_refl eq_refl _ eq_refl _).
  - repeat constructor.
  - discriminate.
Defined.

(* ===================================================================== *)
(** * Part III: further properties of the code                            *)
(* ===================================================================== *)

(* --------------------------------------------------------------------- *)
(** ** Every way an activation of [operator()] goes                       *)
(* --------------------------------------------------------------------- *)

(** A completion that reports an error logs it and calls [close()],
    whatever the coroutine was doing. *)
Lemma error_completed (w : Ambient) (e : error_code) (n : N)
      (s : SessionImp) :
  failed e = true ->
  exists tc,
    close w s = Some (tt, after_close s, tc)
    /\ operator_call w e n s
       = Some (tt, after_close s,
               (if is_eof e then Log DEBUG client_close_socket
                else Log WARNING (error_message e)) :: tc)
    /\ no_io tc
    /\ notifications tc = (if closeConnection s then 1 else 0)
    /\ socket_operations tc
       = (if sock_ s then [sock_cancel; sock_shutdown_both; sock_close]
          else []).
Proof.
  intros F. destruct (close_spec w s) as (tc & Hc & Hio & Hn & Hs & _).
  exists tc. repeat split; try assumption; try apply Hio.
  destruct e; [discriminate | |];
    unfold operator_call; cbn [failed negb is_eof]; run_session;
    rewrite Hc; reflexivity.
Qed.

(** The first activation, from [start()]: the read is issued. *)
Lemma first_activation (w : Ambient) (n : N) (s : SessionImp) :
  coro s = coro_initial ->
  operator_call w no_error n s
  = Some (tt, set_coro coro_at_read s, [async_read_until]).
Proof.
  intros Hc. destruct s as [c cc so rq rs]. cbn in Hc. subst c. reflexivity.
Qed.

(** A read completes on an empty buffer while a handler is available:
    [*req_.rbegin()] is evaluated on the empty string. *)
Lemma read_completed_empty (w : Ambient) (factory : AbstractHandlerFactory)
      (handler : AbstractRequestHandler) (n : N) (s : SessionImp) :
  getHandlerFactory w = Some factory ->
  getRequestHandler factory = Some handler ->
  coro s = coro_at_read -> req_ s = [] ->
  operator_call w no_error n s = None.
Proof.
  intros Hw Hh Hc Hr. destruct s as [c cc so rq rs]. cbn in Hc, Hr.
  subst c rq. unfold operator_call, request_handling. cbn [failed negb].
  rewrite Hw, Hh. reflexivity.
Qed.

(** The activations of a session that is suspended on its read and has a
    handler. *)
Lemma read_completed_cases
      (w : Ambient) (factory : AbstractHandlerFactory)
      (h : AbstractRequestHandler) (n : N) (s : SessionImp) :
  getHandlerFactory w = Some factory ->
  getRequestHandler factory = Some h ->
  coro s = coro_at_read ->
  (req_ s = [] /\ operator_call w no_error n s = None)
  \/ (exists frames partial t,
         Forall no_delimiter frames /\ no_delimiter partial
         /\ partial <> [] /\ req_ s = wire frames ++ partial
         /\ operator_call w no_error n s
            = Some (tt, set_coro coro_at_read (set_req partial s), t)
         /\ dispatched t = [] /\ written t = [] /\ reads_issued t = 1
         /\ notifications t = 0 /\ socket_operations t = [])
  \/ (exists earlier frame t,
         Forall no_delimiter (earlier ++ [frame])
         /\ req_ s = wire (earlier ++ [frame])
         /\ dispatched t = [frame] /\ reads_issued t = 0
         /\ ((failed (fst (handle h frame (res_ s)))
              || empty (snd (handle h frame (res_ s))) = true
              /\ operator_call w no_error n s
                 = Some (tt,
                         set_coro coro_complete
                           (after_close
                              (set_res (snd (handle h frame (res_ s))) s)),
                         t)
              /\ written t = []
              /\ notifications t = (if closeConnection s then 1 else 0)
              /\ socket_operations t = (if sock_ s then release else []))
             \/ (failed (fst (handle h frame (res_ s))) = false
                 /\ snd (handle h frame (res_ s)) <> []
                 /\ operator_call w no_error n s
                    = Some (tt,
                            set_coro coro_at_write
                              (set_res (snd (handle h frame (res_ s))
                                            ++ [DATA_DELIMITER]) s),
                            t)
                 /\ written t
                    = [snd (handle h frame (res_ s)) ++ [DATA_DELIMITER]]
                 /\ notifications t = 0 /\ socket_operations t = []))).
Proof.
  intros Hw Hh Hc.
  destruct (rbegin (req_ s)) as [c|] eqn:R.
  - destruct (Ascii.eqb_spec c DATA_DELIMITER) as [-> | N].
    + right. right.
      destruct (delimiter_terminated _ R) as (earlier & frame & Hf & Hr & _).
      pose proof (@read_completed_frames w factory h Hw Hh s n
                                          earlier frame Hc Hf Hr) as H.
      exists earlier, frame.
      destruct (handle h frame (res_ s)) as [err res]. cbn zeta in H.
      destruct H as (t & Hop & Hd & _ & Hrd & Hwr & Hn & Hs).
      exists t. cbn [fst snd].
      repeat (split; [assumption|]).
      destruct (failed err || empty res) eqn:E; rewrite ?E in *.
      * left. repeat split; assumption.
      * right. apply orb_false_elim in E. destruct E as [E1 E2].
        repeat split; try assumption. now destruct res.
    + right. left.
      destruct (not_delimiter_terminated _ R N)
        as (frames & partial & Hfs & Hp & Hne & Hr & _).
      destruct (@read_completed_partial w factory h Hw Hh s n
                  frames partial Hc Hfs Hp Hne Hr)
        as (t & Hop & Hd & Hwr & Hrd & Hn & Hs & _).
      exists frames, partial, t. repeat split; assumption.
  - left. assert (E : req_ s = []).
    { destruct (req_ s) as [|x r] using rev_ind; [reflexivity|].
      now rewrite rbegin_app in R. }
    split; [exact E|]. now apply read_completed_empty with factory h.
Qed.

Lemma wire_snoc (l : list std_string) (f : std_string) :
  wire (l ++ [f]) = wire l ++ f ++ [DATA_DELIMITER].
Proof.
  unfold wire. rewrite map_app, concat_app. cbn. now rewrite app_nil_r.
Qed.

(** What holds of every activation that is defined. *)
Lemma activation_facts (w : Ambient) (e : error_code) (n : N)
      (s s1 : SessionImp) (t : list Event) :
  operator_call w e n s = Some (tt, s1, t) ->
  length (dispatched t) <= 1
  /\ reads_issued t + length (written t) <= 1
  /\ ((sock_ s1 = false /\ closeConnection s1 = false
       /\ notifications t = (if closeConnection s then 1 else 0)
       /\ socket_operations t = (if sock_ s then release else [])
       /\ reads_issued t = 0 /\ written t = [])
      \/ (sock_ s1 = sock_ s /\ closeConnection s1 = closeConnection s
          /\ notifications t = 0 /\ socket_operations t = []))
  /\ (forall f, In f (dispatched t) ->
        failed e = false /\ coro s = coro_at_read
        /\ rbegin (req_ s) = Some DATA_DELIMITER
        /\ no_delimiter f
        /\ (exists before, req_ s = before ++ f ++ [DATA_DELIMITER])
        /\ ~ no_handler w)
  /\ (forall d, In d (written t) ->
        exists factory h f,
          getHandlerFactory w = Some factory
          /\ getRequestHandler factory = Some h
          /\ dispatched t = [f] /\ written t = [d]
          /\ failed (fst (handle h f (res_ s))) = false
          /\ snd (handle h f (res_ s)) <> []
          /\ d = snd (handle h f (res_ s)) ++ [DATA_DELIMITER]
          /\ res_ s1 = d /\ coro s1 = coro_at_write)
  /\ (failed e = true -> s1 = after_close s /\ no_io t).
Proof.
  intros H. destruct (failed e) eqn:F.
  - (* a completion with an error *)
    destruct (@error_completed w e n s F)
      as (tc & _ & Hop & (Hd & Hwr & Hrd) & Hn & Hs).
    rewrite Hop in H. injection H as <- <-.
    assert (T : forall x l, dispatched (Log x l :: tc) = []
                        /\ written (Log x l :: tc) = []
                        /\ reads_issued (Log x l :: tc) = 0
                        /\ notifications (Log x l :: tc)
                           = (if closeConnection s then 1 else 0)
                        /\ socket_operations (Log x l :: tc)
                           = (if sock_ s then release else [])).
    { intros x l. repeat split; assumption. }
    destruct (is_eof e);
      match goal with
      | |- context [Log ?x ?l :: tc] =>
          destruct (T x l) as (T1 & T2 & T3 & T4 & T5)
      end;
      (split; [rewrite T1; cbn; lia|]);
      (split; [rewrite T2, T3; cbn; lia|]);
      (split; [left; repeat split; assumption|]);
      (split; [rewrite T1; intros ? []|]);
      (split; [rewrite T2; intros ? []|]);
      intros _; repeat split; assumption.
  - destruct e; try discriminate F.
    destruct (coro s) eqn:Hc.
    + (* the first activation *)
      rewrite (first_activation w n s Hc) in H. injection H as <- <-.
      split; [cbn; lia|]. split; [cbn; lia|].
      split; [right; now repeat split|].
      split; [intros ? []|]. split; [intros ? []|]. discriminate.
    + (* a read has completed *)
      assert (K : no_handler w
                  \/ exists factory h,
                      getHandlerFactory w = Some factory
                      /\ getRequestHandler factory = Some h).
      { unfold no_handler.
        destruct (getHandlerFactory w) as [factory|]; [|now left; left].
        destruct (getRequestHandler factory) as [h|] eqn:Hh.
        - right. now exists factory, h.
        - left. right. now exists factory. }
      destruct K as [K | (factory & h & Hw & Hh)].
      * assert (Hop : exists t0,
                   operator_call w no_error n s
                   = Some (tt, set_coro coro_complete (after_close s), t0)
                   /\ no_io t0
                   /\ notifications t0
                      = (if closeConnection s then 1 else 0)
                   /\ socket_operations t0
                      = (if sock_ s then release else [])).
        { destruct K as [Hw | (factory & Hw & Hh)].
          - now apply read_completed_no_factory.
          - now apply read_completed_invalid_handler with factory. }
        destruct Hop as (t0 & Hop & (Hd & Hwr & Hrd) & Hn & Hs).
        rewrite Hop in H. injection H as <- <-.
        rewrite Hd, Hwr, Hrd.
        split; [cbn; lia|]. split; [cbn; lia|].
        split; [left; repeat split; assumption|].
        split; [intros ? []|]. split; [intros ? []|]. discriminate.
      * assert (NH : ~ no_handler w).
        { intros [E | (f' & E1 & E2)]; congruence. }
        destruct (@read_completed_cases w factory h n s Hw Hh Hc)
          as [(_ & Hop)
             | [(frames & partial & t0 & _ & _ & _ & _ & Hop & Hd & Hwr
                 & Hrd & Hn & Hs)
               | (earlier & frame & t0 & Hf & Hr & Hd & Hrd & Hcase)]].
        -- congruence.
        -- rewrite Hop in H. injection H as <- <-.
           rewrite Hd, Hwr, Hrd.
           split; [cbn; lia|]. split; [cbn; lia|].
           split; [right; repeat split; assumption|].
           split; [intros ? []|]. split; [intros ? []|]. discriminate.
        -- assert (Hdisp : forall f, In f [frame] ->
                     failed no_error = false /\ coro_at_read = coro_at_read
                     /\ rbegin (req_ s) = Some DATA_DELIMITER
                     /\ no_delimiter f
                     /\ (exists before,
                            req_ s = before ++ f ++ [DATA_DELIMITER])
                     /\ ~ no_handler w).
           { intros f [<- | []]. repeat split; try assumption.
             - rewrite Hr. apply rbegin_wire.
             - apply Forall_app in Hf. destruct Hf as [_ Hf].
               now inversion Hf.
             - exists (wire earlier). rewrite Hr. apply wire_snoc. }
           destruct Hcase as [(_ & Hop & Hwr & Hn & Hs)
                             | (Hnf & Hne & Hop & Hwr & Hn & Hs)];
             rewrite Hop in H; injection H as <- <-;
             rewrite Hd, Hwr, Hrd.
           ++ split; [cbn; lia|]. split; [cbn; lia|].
              split; [left; repeat split; assumption|].
              split; [exact Hdisp|]. split; [intros ? []|]. discriminate.
           ++ split; [cbn; lia|]. split; [cbn; lia|].
              split; [right; repeat split; assumption|].
              split; [exact Hdisp|]. split; [|discriminate].
              intros d [<- | []].
              exists factory, h, frame.
              repeat split; assumption.
    + (* a write has completed *)
      rewrite (write_completed w s n Hc) in H. injection H as <- <-.
      split; [cbn; lia|]. split; [cbn; lia|].
      split; [right; now repeat split|].
      split; [intros ? []|]. split; [intros ? []|]. discriminate.
    + (* the coroutine is complete *)
      rewrite (completed w s n Hc) in H. injection H as <- <-.
      split; [cbn; lia|]. split; [cbn; lia|].
      split; [right; now repeat split|].
      split; [intros ? []|]. split; [intros ? []|]. discriminate.
Qed.

(* --------------------------------------------------------------------- *)
(** ** One activation                                                     *)
(* --------------------------------------------------------------------- *)

(** X1. An activation of [operator()] issues at most one asynchronous
    operation (a read or a write, never both) and hands at most one frame
    to the handler; an activation with a failing error code issues none and
    dispatches nothing. *)
Theorem one_operation_per_activation
        (w : Ambient) (e : error_code) (n : N)
        (s s1 : SessionImp) (t : list Event) :
  operator_call w e n s = Some (tt, s1, t) ->
  reads_issued t + length (written t) <= 1
  /\ length (dispatched t) <= 1
  /\ (failed e = true ->
      reads_issued t = 0 /\ written t = [] /\ dispatched t = []).
Proof.
  intros H. destruct (activation_facts _ _ _ _ H)
    as (Hd & Hio & _ & _ & _ & He).
  split; [assumption|]. split; [assumption|].
  intros F. destruct (He F) as (_ & D & W & R). now repeat split.
Qed.

Lemma one_operation_per_activation_witness :
  exists s1 t,
    operator_call Demo.ambient no_error 3 (Demo.reading (lit "lA" ++ Demo.nl))
    = Some (tt, s1, t)
    /\ reads_issued t + length (written t) <= 1
    /\ length (dispatched t) <= 1.
Proof.
  do 2 eexists. split; [reflexivity|].
  split;
    apply (@one_operation_per_activation
             Demo.ambient no_error 3 (Demo.reading (lit "lA" ++ Demo.nl))
             _ _ eq_refl).
Defined.

(** X2. Whatever an activation writes is the output of the handler for
    the one frame dispatched in that same activation: the handler the
    factory gave, called on that frame and on [res_] as it was, returned a
    non-failing code and a non-empty output; what is written is that
    output followed by one delimiter; it is the content of [res_] when the
    write is issued, and the coroutine is then suspended on the write. *)
Theorem written_response_form
        (w : Ambient) (e : error_code) (n : N)
        (s s1 : SessionImp) (t : list Event) (d : std_string) :
  operator_call w e n s = Some (tt, s1, t) ->
  In d (written t) ->
  exists factory handler frame,
    getHandlerFactory w = Some factory
    /\ getRequestHandler factory = Some handler
    /\ dispatched t = [frame] /\ written t = [d]
    /\ failed (fst (handle handler frame (res_ s))) = false
    /\ snd (handle handler frame (res_ s)) <> []
    /\ d = snd (handle handler frame (res_ s)) ++ [DATA_DELIMITER]
    /\ res_ s1 = d /\ coro s1 = coro_at_write.
Proof.
  intros H I. destruct (activation_facts _ _ _ _ H)
    as (_ & _ & _ & _ & Hw & _).
  exact (Hw d I).
Qed.

Lemma written_response_form_witness :
  exists s1 t,
    operator_call Demo.ambient no_error 3 (Demo.reading (lit "lA" ++ Demo.nl))
    = Some (tt, s1, t)
    /\ In (lit "ok A" ++ Demo.nl) (written t)
    /\ exists factory handler frame,
        getHandlerFactory Demo.ambient = Some factory
        /\ getRequestHandler factory = Some handler
        /\ dispatched t = [frame] /\ written t = [lit "ok A" ++ Demo.nl]
        /\ failed (fst (handle handler frame [])) = false
        /\ snd (handle handler frame []) <> []
        /\ lit "ok A" ++ Demo.nl
           = snd (handle handler frame []) ++ [DATA_DELIMITER]
        /\ res_ s1 = lit "ok A" ++ Demo.nl /\ coro s1 = coro_at_write.
Proof.
  do 2 eexists. split; [reflexivity|]. split; [now left|].
  apply (@written_response_form
           Demo.ambient no_error 3 (Demo.reading (lit "lA" ++ Demo.nl))
           _ _ (lit "ok A" ++ Demo.nl) eq_refl).
  now left.
Defined.

(** X3. A frame is handed to the handler only by an activation without
    error, of a session suspended on its read, with a handler available
    and a read buffer whose last byte is the delimiter; the frame carries
    no delimiter and is what precedes that last byte. *)
Theorem dispatch_only_of_a_terminated_frame
        (w : Ambient) (e : error_code) (n : N)
        (s s1 : SessionImp) (t : list Event) (frame : std_string) :
  operator_call w e n s = Some (tt, s1, t) ->
  In frame (dispatched t) ->
  failed e = false /\ coro s = coro_at_read
  /\ rbegin (req_ s) = Some DATA_DELIMITER
  /\ no_delimiter frame
  /\ (exists before, req_ s = before ++ frame ++ [DATA_DELIMITER])
  /\ ~ no_handler w.
Proof.
  intros H I. destruct (activation_facts _ _ _ _ H)
    as (_ & _ & _ & Hd & _ & _).
  exact (Hd frame I).
Qed.

Lemma dispatch_only_of_a_terminated_frame_witness :
  exists s1 t,
    operator_call Demo.ambient no_error 3
                  (Demo.reading (lit "lA" ++ Demo.nl ++ lit "lB" ++ Demo.nl))
    = Some (tt, s1, t)
    /\ In (lit "lB") (dispatched t)
    /\ no_delimiter (lit "lB")
    /\ exists before,
        req_ (Demo.reading (lit "lA" ++ Demo.nl ++ lit "lB" ++ Demo.nl))
        = before ++ lit "lB" ++ [DATA_DELIMITER].
Proof.
  do 2 eexists. split; [reflexivity|]. split; [now left|].
  destruct (@dispatch_only_of_a_terminated_frame
              Demo.ambient no_error 3
              (Demo.reading (lit "lA" ++ Demo.nl ++ lit "lB" ++ Demo.nl))
              _ _ (lit "lB") eq_refl (or_introl eq_refl))
    as (_ & _ & _ & Hn & Hb & _).
  split; assumption.
Defined.

(** X4. The one activation that is not defined: no error, the session
    suspended on its read, a handler available, and an empty read buffer,
    on which [*req_.rbegin()] is evaluated.  Every other activation is
    defined. *)
Theorem activation_undefined_only_on_empty_buffer
        (w : Ambient) (e : error_code) (n : N) (s : SessionImp) :
  operator_call w e n s = None
  <-> failed e = false /\ coro s = coro_at_read
      /\ ~ no_handler w /\ req_ s = [].
Proof.
  split.
  - intros H. destruct (failed e) eqn:F.
    + destruct (@error_completed w e n s F) as (tc & _ & Hop & _).
      congruence.
    + destruct e; try discriminate F. destruct (coro s) eqn:Hc.
      * rewrite (first_activation w n s Hc) in H. discriminate.
      * destruct (getHandlerFactory w) as [factory|] eqn:Hw.
        -- destruct (getRequestHandler factory) as [h|] eqn:Hh.
           ++ destruct (@read_completed_cases w factory h n s Hw Hh Hc)
                as [(Hr & _)
                   | [(frames & partial & t0 & _ & _ & _ & _ & Hop & _)
                     | (earlier & frame & t0 & _ & _ & _ & _
                        & [(_ & Hop & _) | (_ & _ & Hop & _)])]];
                try congruence.
              repeat split; try assumption.
              intros [E | (f' & E1 & E2)]; congruence.
           ++ destruct (read_completed_invalid_handler w s n Hc Hw Hh)
                as (t0 & Hop & _). congruence.
        -- destruct (read_completed_no_factory w s n Hc Hw)
             as (t0 & Hop & _). congruence.
      * rewrite (write_completed w s n Hc) in H. discriminate.
      * rewrite (completed w s n Hc) in H. discriminate.
  - intros (F & Hc & NH & Hr). destruct e; try discriminate F.
    destruct (getHandlerFactory w) as [factory|] eqn:Hw.
    + destruct (getRequestHandler factory) as [h|] eqn:Hh.
      * now apply read_completed_empty with factory h.
      * exfalso. apply NH. right. now exists factory.
    + exfalso. apply NH. now left.
Qed.

(** X5. A completion that reports an error closes the session in every
    state of the coroutine: the activation is [close()] after one log line
    (debug for end of file, warning with the message otherwise); nothing
    is dispatched, even when a complete frame is in the buffer, nothing is
    written or read, the buffers and the coroutine are left as they were,
    the socket is released and the owner detached. *)
Theorem failing_completion_closes
        (w : Ambient) (e : error_code) (n : N) (s : SessionImp) :
  failed e = true ->
  exists tc,
    close w s = Some (tt, after_close s, tc)
    /\ operator_call w e n s
       = Some (tt, after_close s,
               (if is_eof e then Log DEBUG client_close_socket
                else Log WARNING (error_message e)) :: tc)
    /\ dispatched tc = [] /\ written tc = [] /\ reads_issued tc = 0
    /\ notifications tc = (if closeConnection s then 1 else 0)
    /\ socket_operations tc = (if sock_ s then release else [])
    /\ closed (after_close s)
    /\ coro (after_close s) = coro s
    /\ req_ (after_close s) = req_ s /\ res_ (after_close s) = res_ s.
Proof.
  intros F. destruct (@error_completed w e n s F)
    as (tc & Hc & Hop & (Hd & Hw & Hr) & Hn & Hs).
  exists tc. repeat split; assumption.
Qed.

Lemma failing_completion_closes_witness :
  failed eof = true
  /\ exists tc,
      operator_call Demo.ambient eof 0 (Demo.reading (lit "lA" ++ Demo.nl))
      = Some (tt, after_close (Demo.reading (lit "lA" ++ Demo.nl)),
              Log DEBUG client_close_socket :: tc)
      /\ dispatched tc = [] /\ notifications tc = 1.
Proof.
  split; [reflexivity|].
  destruct (@failing_completion_closes
              Demo.ambient eof 0 (Demo.reading (lit "lA" ++ Demo.nl))
              eq_refl)
    as (tc & _ & Hop & Hd & _ & _ & Hn & _).
  exists tc. repeat split; assumption.
Defined.

(** X6. A closed session stays closed: whatever activation runs on a
    session whose socket is released and whose owner is detached, the
    session is still closed afterwards, the owner is not notified, and
    none of the three socket calls of [close()] ([cancel], [shutdown],
    [close]) is made again.  Asynchronous reads and writes are not among
    these calls: an activation without error can still issue one. *)
Theorem closed_session_stays_closed
        (w : Ambient) (e : error_code) (n : N)
        (s s1 : SessionImp) (t : list Event) :
  closed s ->
  operator_call w e n s = Some (tt, s1, t) ->
  closed s1 /\ notifications t = 0 /\ socket_operations t = [].
Proof.
  intros (Hs & Hc) H. destruct (activation_facts _ _ _ _ H)
    as (_ & _ & [(A & B & N & S & _) | (A & B & N & S)] & _).
  - rewrite Hc in N. rewrite Hs in S. now repeat split.
  - unfold closed. rewrite A, B. now repeat split.
Qed.

Lemma closed_session_stays_closed_witness :
  closed (after_close (Demo.reading (lit "lA" ++ Demo.nl)))
  /\ exists s1 t,
      operator_call Demo.ambient no_error 3
                    (after_close (Demo.reading (lit "lA" ++ Demo.nl)))
      = Some (tt, s1, t)
      /\ closed s1 /\ notifications t = 0 /\ socket_operations t = [].
Proof.
  split; [now split|]. do 2 eexists. split; [reflexivity|].
  apply (@closed_session_stays_closed
           Demo.ambient no_error 3
           (after_close (Demo.reading (lit "lA" ++ Demo.nl))) _ _).
  - now split.
  - reflexivity.
Defined.

(* --------------------------------------------------------------------- *)
(** ** Sequences of calls on a session                                    *)
(* --------------------------------------------------------------------- *)

Lemma imp_events_map (t : list Event) :
  Session.imp_events (map Session.imp t) = t.
Proof.
  unfold Session.imp_events.
  induction t as [|e t IH]; cbn [map flat_map app];
    [reflexivity | now rewrite IH].
Qed.

Lemma imp_events_app (t u : list Session.Event) :
  Session.imp_events (t ++ u)
  = Session.imp_events t ++ Session.imp_events u.
Proof. apply flat_map_app. Qed.

Lemma notifications_app (t u : list Event) :
  notifications (t ++ u) = notifications t + notifications u.
Proof. unfold notifications. now rewrite filter_app, length_app. Qed.

Lemma socket_operations_app (t u : list Event) :
  socket_operations (t ++ u) = socket_operations t ++ socket_operations u.
Proof. apply filter_app. Qed.

(** What an activation and [close()] do to the socket and to the owner's
    connection. *)
Lemma activation_connection (w : Ambient) (e : error_code) (n : N)
      (s s1 : SessionImp) (t : list Event) :
  operator_call w e n s = Some (tt, s1, t) ->
  (closeConnection s1 = true -> closeConnection s = true)
  /\ notifications t
     = (if closeConnection s then if closeConnection s1 then 0 else 1
        else 0)
  /\ (sock_ s1 = true -> sock_ s = true)
  /\ socket_operations t
     = (if sock_ s then if sock_ s1 then [] else release else []).
Proof.
  intros H. destruct (activation_facts _ _ _ _ H)
    as (_ & _ & [(Hs & Hc & Hn & Ho & _) | (Hs & Hc & Hn & Ho)] & _);
    rewrite Hs, Hc, Hn, Ho;
    destruct (closeConnection s), (sock_ s); repeat split; congruence.
Qed.

Lemma close_connection (w : Ambient) (s s1 : SessionImp) (t : list Event) :
  close w s = Some (tt, s1, t) ->
  (closeConnection s1 = true -> closeConnection s = true)
  /\ notifications t
     = (if closeConnection s then if closeConnection s1 then 0 else 1
        else 0)
  /\ (sock_ s1 = true -> sock_ s = true)
  /\ socket_operations t
     = (if sock_ s then if sock_ s1 then [] else release else []).
Proof.
  intros H. destruct (close_spec w s) as (tc & Hc & _ & Hn & Ho & _).
  rewrite Hc in H. injection H as <- <-. rewrite Hn, Ho. cbn.
  destruct (closeConnection s), (sock_ s); repeat split; congruence.
Qed.

(** What one step does to the socket and to the owner's connection. *)
Lemma call_facts (c : Session.Call) (s s1 : SessionImp)
      (t : list Session.Event) :
  Session.call c s = Some (s1, t) ->
  (closeConnection s1 = true -> closeConnection s = true)
  /\ notifications (Session.imp_events t)
     = (if closeConnection s
        then if closeConnection s1
             then 0
             else match c with Session.Destroy => 0 | _ => 1 end
        else 0)
  /\ (sock_ s1 = true -> sock_ s = true)
  /\ socket_operations (Session.imp_events t)
     = (if sock_ s then if sock_ s1 then [] else release else []).
Proof.
  destruct c as [w | w | | w e n | data | k]; cbn.
  - unfold Session.start, start.
    destruct (operator_call w no_error 0 s) as [[[[] s'] t']|] eqn:H;
      [|discriminate].
    intros E. injection E as <- <-.
    change (Session.imp_events
              (Session.line Session.start_session :: map Session.imp t'))
      with (Session.imp_events (map Session.imp t')).
    rewrite imp_events_map.
    exact (activation_connection _ _ _ _ H).
  - unfold Session.close.
    destruct (close w s) as [[[[] s'] t']|] eqn:H; [|discriminate].
    intros E. injection E as <- <-. rewrite imp_events_map.
    exact (close_connection _ _ H).
  - intros E. injection E as <- <-. cbn.
    destruct (closeConnection s), (sock_ s); repeat split; congruence.
  - destruct (operator_call w e n s) as [[[[] s'] t']|] eqn:H;
      [|discriminate].
    intros E. injection E as <- <-. rewrite imp_events_map.
    exact (activation_connection _ _ _ _ H).
  - intros E. injection E as <- <-. cbn.
    destruct (closeConnection s), (sock_ s); repeat split; congruence.
  - intros E. injection E as <- <-. cbn.
    destruct (closeConnection s), (sock_ s); repeat split; congruence.
Qed.

(** The same over a sequence of steps. *)
Lemma run_facts (calls : list Session.Call) :
  forall (s s1 : SessionImp) (t : list Session.Event),
    Session.run calls s = Some (s1, t) ->
    (closeConnection s1 = true -> closeConnection s = true)
    /\ notifications (Session.imp_events t)
       <= (if closeConnection s then if closeConnection s1 then 0 else 1
           else 0)
    /\ (sock_ s1 = true -> sock_ s = true)
    /\ socket_operations (Session.imp_events t)
       = (if sock_ s then if sock_ s1 then [] else release else []).
Proof.
  induction calls as [|c calls IH]; intros s s1 t H; cbn in H.
  - injection H as <- <-. cbn.
    destruct (closeConnection s), (sock_ s); repeat split; auto.
  - destruct (Session.call c s) as [[s0 t0]|] eqn:Hc; [|discriminate].
    destruct (Session.run calls s0) as [[s2 t2]|] eqn:Hr; [|discriminate].
    injection H as <- <-.
    destruct (call_facts _ _ Hc) as (C1 & N1 & S1 & O1).
    destruct (IH _ _ _ Hr) as (C2 & N2 & S2 & O2).
    rewrite imp_events_app, notifications_app, socket_operations_app.
    rewrite N1, O1, O2.
    assert (N1' : (if closeConnection s
                   then if closeConnection s0
                        then 0
                        else match c with Session.Destroy => 0 | _ => 1 end
                   else 0)
                  <= (if closeConnection s
                      then if closeConnection s0 then 0 else 1 else 0))
      by (destruct (closeConnection s), (closeConnection s0), c; lia).
    destruct (closeConnection s), (closeConnection s0), (closeConnection s2),
      (sock_ s), (sock_ s0), (sock_ s2);
      repeat split; intros; try reflexivity; try lia;
      try (now apply C1); try (now apply S1);
      try (specialize (C2 eq_refl); discriminate);
      try (specialize (S2 eq_refl); discriminate);
      try (specialize (C1 eq_refl); discriminate);
      try (specialize (S1 eq_refl); discriminate).
Qed.

Lemma run_app (pre post : list Session.Call) :
  forall (s s1 : SessionImp) (t : list Session.Event),
    Session.run (pre ++ post) s = Some (s1, t) ->
    exists s0 t0 t1,
      Session.run pre s = Some (s0, t0)
      /\ Session.run post s0 = Some (s1, t1)
      /\ t = t0 ++ t1.
Proof.
  induction pre as [|c pre IH]; intros s s1 t H; cbn in H.
  - exists s, [], t. now repeat split.
  - destruct (Session.call c s) as [[s' t']|] eqn:Hc; [|discriminate].
    destruct (Session.run (pre ++ post) s') as [[s2 t2]|] eqn:Hr;
      [|discriminate].
    injection H as <- <-.
    destruct (IH _ _ _ Hr) as (s0 & t0 & t1 & H0 & H1 & ->).
    exists s0, (t' ++ t0), t1. cbn. rewrite Hc, H0.
    repeat split; [assumption | apply app_assoc].
Qed.

(** X7. Over any sequence of calls of the owner ([start], [close], the
    destructor), completions and buffer traffic, the owner's close signal
    is emitted at most once; it is never emitted for a session whose owner
    is already detached, and once it has been emitted the owner is
    detached. *)
Theorem owner_notified_at_most_once
        (calls : list Session.Call) (s s1 : SessionImp)
        (t : list Session.Event) :
  Session.run calls s = Some (s1, t) ->
  notifications (Session.imp_events t) <= 1
  /\ (closeConnection s = false ->
      notifications (Session.imp_events t) = 0)
  /\ (notifications (Session.imp_events t) = 1 ->
      closeConnection s1 = false).
Proof.
  intros H. destruct (run_facts _ _ H) as (_ & N & _).
  destruct (closeConnection s), (closeConnection s1);
    repeat split; intros; try lia; try reflexivity; try discriminate.
Qed.

Lemma owner_notified_at_most_once_witness :
  exists s1 t,
    Session.run [Session.Start Demo.ambient;
                 Session.Arrived (lit "lA" ++ Demo.nl);
                 Session.Completed Demo.ambient eof 0;
                 Session.Close Demo.ambient;
                 Session.Completed Demo.ambient
                                   (io_error (lit "Operation canceled")) 0]
                (SessionImp_new true)
    = Some (s1, t)
    /\ notifications (Session.imp_events t) = 1
    /\ notifications (Session.imp_events t) <= 1
    /\ closeConnection s1 = false.
Proof.
  do 2 eexists. split; [reflexivity|]. split; [reflexivity|].
  destruct (@owner_notified_at_most_once
              [Session.Start Demo.ambient;
               Session.Arrived (lit "lA" ++ Demo.nl);
               Session.Completed Demo.ambient eof 0;
               Session.Close Demo.ambient;
               Session.Completed Demo.ambient
                                 (io_error (lit "Operation canceled")) 0]
              (SessionImp_new true) _ _ eq_refl) as (L & _ & D).
  split; [exact L | exact (D eq_refl)].
Defined.

(** X8. After the destructor of [Session] has run, nothing that still
    happens to the implementation object (a pending completion, with or
    without error) emits the owner's close signal. *)
Theorem no_notification_after_destruction
        (before after : list Session.Call) (s s1 : SessionImp)
        (t : list Session.Event) :
  Session.run (before ++ Session.Destroy :: after) s = Some (s1, t) ->
  exists s0 t0 t1,
    Session.run before s = Some (s0, t0)
    /\ Session.run after (set_closeConnection false s0) = Some (s1, t1)
    /\ t = t0 ++ Session.line Session.session_closed :: t1
    /\ notifications (Session.imp_events t1) = 0.
Proof.
  intros H. destruct (run_app _ _ _ H) as (s0 & t0 & t' & H0 & H1 & ->).
  cbn in H1.
  destruct (Session.run after (set_closeConnection false s0))
    as [[s2 t1]|] eqn:Hr; [|discriminate].
  injection H1 as <- <-.
  exists s0, t0, t1. repeat split; try assumption.
  destruct (run_facts _ _ Hr) as (_ & N & _). cbn in N. lia.
Qed.

Lemma no_notification_after_destruction_witness :
  exists s1 t s0 t0 t1,
    Session.run ([Session.Start Demo.ambient]
                   ++ Session.Destroy
                   :: [Session.Completed Demo.ambient eof 0])
                (SessionImp_new true)
    = Some (s1, t)
    /\ Session.run [Session.Start Demo.ambient] (SessionImp_new true)
       = Some (s0, t0)
    /\ t = t0 ++ Session.line Session.session_closed :: t1
    /\ notifications (Session.imp_events t1) = 0.
Proof.
  destruct (@no_notification_after_destruction
              [Session.Start Demo.ambient]
              [Session.Completed Demo.ambient eof 0]
              (SessionImp_new true) _ _ eq_refl)
    as (s0 & t0 & t1 & H0 & _ & E & N).
  do 2 eexists. exists s0, t0, t1. split; [reflexivity|].
  repeat split; assumption.
Defined.

(** X9. Over any sequence of calls and completions the three socket
    calls of [close()] are made not at all, or once each in the order
    [cancel], [shutdown], [close]: they are made when [sock_.is_open()]
    turns from true to false, and it never turns true again.  Asynchronous
    reads and writes are not among the calls counted here. *)
Theorem socket_released_at_most_once
        (calls : list Session.Call) (s s1 : SessionImp)
        (t : list Session.Event) :
  Session.run calls s = Some (s1, t) ->
  socket_operations (Session.imp_events t)
  = (if sock_ s then if sock_ s1 then [] else release else [])
  /\ (sock_ s = false -> sock_ s1 = false).
Proof.
  intros H. destruct (run_facts _ _ H) as (_ & _ & S & O).
  split; [exact O|]. intros E. destruct (sock_ s1); [|reflexivity].
  specialize (S eq_refl). congruence.
Qed.

Lemma socket_released_at_most_once_witness :
  exists s1 t,
    Session.run [Session.Start Demo.ambient;
                 Session.Close Demo.ambient;
                 Session.Completed Demo.ambient
                                   (io_error (lit "Operation canceled")) 0;
                 Session.Close Demo.ambient]
                (SessionImp_new true)
    = Some (s1, t)
    /\ socket_operations (Session.imp_events t) = release
    /\ sock_ s1 = false.
Proof.
  do 2 eexists. split; [reflexivity|].
  destruct (@socket_released_at_most_once
              [Session.Start Demo.ambient;
               Session.Close Demo.ambient;
               Session.Completed Demo.ambient
                                 (io_error (lit "Operation canceled")) 0;
               Session.Close Demo.ambient]
              (SessionImp_new true) _ _ eq_refl) as (O & _).
  split; [exact O | reflexivity].
Defined.

(* --------------------------------------------------------------------- *)
(** ** Cycles                                                             *)
(* --------------------------------------------------------------------- *)

(** A read completes on a buffer that is one frame, and the handler
    answers: the whole trace of the activation. *)
Lemma read_completed_one_frame
      (w : Ambient) (factory : AbstractHandlerFactory)
      (h : AbstractRequestHandler) (n : N) (s : SessionImp)
      (f res : std_string) :
  getHandlerFactory w = Some factory ->
  getRequestHandler factory = Some h ->
  coro s = coro_at_read -> no_delimiter f ->
  req_ s = f ++ [DATA_DELIMITER] ->
  handle h f (res_ s) = (no_error, res) -> res <> [] ->
  operator_call w no_error n s
  = Some (tt, set_coro coro_at_write (set_res (res ++ [DATA_DELIMITER]) s),
          [Log INFO (readed n); Log INFO (in_buffer (length (req_ s)));
           Log DEBUG handle_request; handler_handle f;
           async_write (res ++ [DATA_DELIMITER])]).
Proof.
  intros Hw Hh Hc Hf Hr Hhandle Hne.
  assert (Hr' : req_ s = wire ([] ++ [f])) by (cbn; now rewrite app_nil_r).
  assert (HF : Forall no_delimiter ([] ++ [f])) by (repeat constructor; exact Hf).
  destruct s as [c cc so rq rs]. cbn [coro req_ res_] in *.
  subst c. clear Hr. subst rq.
  unfold operator_call, request_handling. cbn [failed negb].
  rewrite Hw, Hh. run_session.
  rewrite sregex_token_iterator_frames, skip_to_last_app, rbegin_wire
    by assumption.
  rewrite Z.add_0_l, counter_is_zero, Ascii.eqb_refl. cbn [negb].
  run_session. rewrite Hhandle. run_session. cbn [failed].
  destruct res as [|x res]; [congruence|]. cbn [empty]. reflexivity.
Qed.

(** X10. One whole cycle of a fresh session: [start] issues the read; a
    frame arrives and the read completes; the frame is handed to the
    handler; the answer followed by one delimiter is written; when the
    write completes both buffers are empty and the next read is issued.
    The events happen in this order, the socket and the owner's connection
    are untouched. *)
Theorem request_response_cycle
        (w : Ambient) (factory : AbstractHandlerFactory)
        (h : AbstractRequestHandler) (sock_is_open : bool)
        (f res : std_string) (n1 n2 : N) (k : nat) :
  getHandlerFactory w = Some factory ->
  getRequestHandler factory = Some h ->
  no_delimiter f ->
  handle h f [] = (no_error, res) -> res <> [] ->
  Session.run [Session.Start w;
               Session.Arrived (f ++ [DATA_DELIMITER]);
               Session.Completed w no_error n1;
               Session.Consumed k;
               Session.Completed w no_error n2]
              (SessionImp_new sock_is_open)
  = Some ({| coro := coro_at_read; closeConnection := true;
             sock_ := sock_is_open; req_ := []; res_ := [] |},
          [Session.line Session.start_session;
           Session.imp async_read_until;
           Session.imp (Log INFO (readed n1));
           Session.imp (Log INFO (in_buffer (length (f ++ [DATA_DELIMITER]))));
           Session.imp (Log DEBUG handle_request);
           Session.imp (handler_handle f);
           Session.imp (async_write (res ++ [DATA_DELIMITER]));
           Session.imp (Log INFO (writed n2));
           Session.imp async_read_until]).
Proof.
  intros Hw Hh Hf Hhandle Hne.
  cbn [Session.run Session.call]. unfold Session.start, start.
  rewrite first_activation by reflexivity.
  rewrite (@read_completed_one_frame w factory h n1
             (received (f ++ [DATA_DELIMITER])
                       (set_coro coro_at_read (SessionImp_new sock_is_open)))
             f res Hw Hh eq_refl Hf eq_refl Hhandle Hne).
  rewrite write_completed by reflexivity.
  reflexivity.
Qed.

Lemma request_response_cycle_witness :
  getHandlerFactory Demo.ambient
  = Some {| getRequestHandler := Some Demo.handler |}
  /\ no_delimiter (lit "lA")
  /\ handle Demo.handler (lit "lA") [] = (no_error, lit "ok A")
  /\ exists s1 t,
      Session.run [Session.Start Demo.ambient;
                   Session.Arrived (lit "lA" ++ [DATA_DELIMITER]);
                   Session.Completed Demo.ambient no_error 3;
                   Session.Consumed 5;
                   Session.Completed Demo.ambient no_error 5]
                  (SessionImp_new true)
      = Some (s1, t)
      /\ req_ s1 = [] /\ res_ s1 = [] /\ coro s1 = coro_at_read
      /\ written (Session.imp_events t) = [lit "ok A" ++ [DATA_DELIMITER]].
Proof.
  split; [reflexivity|]. split; [repeat constructor|].
  split; [reflexivity|].
  do 2 eexists. split.
  - apply (@request_response_cycle
             Demo.ambient {| getRequestHandler := Some Demo.handler |}
             Demo.handler true (lit "lA") (lit "ok A") 3 5 5
             eq_refl eq_refl).
    + repeat constructor.
    + reflexivity.
    + discriminate.
  - repeat split.
Defined.

(** X11. A frame that arrives in two pieces is dispatched whole.  The
    first read completes on complete frames followed by a partial segment:
    nothing is dispatched.  The rest of the frame and its delimiter
    arrive and the read completes again: the frame handed to the handler
    is the partial segment followed by the rest, and the frames that
    preceded it are not counted again. *)
Theorem frame_in_two_reads
        (w w' : Ambient) (factory factory' : AbstractHandlerFactory)
        (h h' : AbstractRequestHandler) (n n' : N) (s : SessionImp)
        (frames : list std_string) (partial rest : std_string) :
  getHandlerFactory w = Some factory ->
  getRequestHandler factory = Some h ->
  getHandlerFactory w' = Some factory' ->
  getRequestHandler factory' = Some h' ->
  coro s = coro_at_read ->
  Forall no_delimiter frames -> no_delimiter partial -> partial <> [] ->
  no_delimiter rest ->
  req_ s = wire frames ++ partial ->
  exists s1 t1 s2 t2,
    operator_call w no_error n s = Some (tt, s1, t1)
    /\ dispatched t1 = [] /\ written t1 = [] /\ reads_issued t1 = 1
    /\ operator_call w' no_error n'
                     (received (rest ++ [DATA_DELIMITER]) s1)
       = Some (tt, s2, t2)
    /\ dispatched t2 = [partial ++ rest]
    /\ ignored_logged t2 = [].
Proof.
  intros Hw Hh Hw' Hh' Hc Hfs Hp Hne Hrest Hr.
  destruct (@read_completed_partial w factory h Hw Hh s n
              frames partial Hc Hfs Hp Hne Hr)
    as (t1 & Hop1 & Hd1 & Hwr1 & Hrd1 & _).
  assert (HF : Forall no_delimiter ([] ++ [partial ++ rest])).
  { repeat constructor. apply Forall_app. now split. }
  pose proof (@read_completed_frames w' factory' h' Hw' Hh'
                (received (rest ++ [DATA_DELIMITER])
                          (set_coro coro_at_read (set_req partial s)))
                n' [] (partial ++ rest) eq_refl HF) as H2.
  cbn [received set_req set_coro req_ res_] in H2.
  assert (E : partial ++ rest ++ [DATA_DELIMITER]
              = wire ([] ++ [partial ++ rest])).
  { cbn. now rewrite app_nil_r, app_assoc. }
  specialize (H2 E).
  destruct (handle h' (partial ++ rest) (res_ s)) as [err res].
  cbn zeta in H2. destruct H2 as (t2 & Hop2 & Hd2 & Hi2 & _).
  exists (set_coro coro_at_read (set_req partial s)), t1.
  eexists. exists t2.
  repeat split; try eassumption.
Qed.

Lemma frame_in_two_reads_witness :
  exists s1 t1 s2 t2,
    operator_call Demo.ambient no_error 3
                  (Demo.reading (lit "lA" ++ Demo.nl ++ lit "lPART"))
    = Some (tt, s1, t1)
    /\ dispatched t1 = [] /\ written t1 = [] /\ reads_issued t1 = 1
    /\ operator_call Demo.ambient no_error 9
                     (received (lit "IAL" ++ [DATA_DELIMITER]) s1)
       = Some (tt, s2, t2)
    /\ dispatched t2 = [lit "lPART" ++ lit "IAL"]
    /\ ignored_logged t2 = [].
Proof.
  apply (@frame_in_two_reads
           Demo.ambient Demo.ambient
           {| getRequestHandler := Some Demo.handler |}
           {| getRequestHandler := Some Demo.handler |}
           Demo.handler Demo.handler 3 9
           (Demo.reading (lit "lA" ++ Demo.nl ++ lit "lPART"))
           [lit "lA"] (lit "lPART") (lit "IAL")
           eq_refl eq_refl eq_refl eq_refl eq_refl).
  - repeat constructor.
  - repeat constructor.
  - discriminate.
  - repeat constructor.
  - reflexivity.
Defined.

(* --------------------------------------------------------------------- *)
(** ** The response object, on all paths of [handle]                      *)
(* --------------------------------------------------------------------- *)

Section ResponseObjectProperties.
Context {C : hl.Collaborators}.

(** [handle] dumps the response object of the request and returns the
    non-failing code. *)
Lemma handle_dumps (request response : std_string) :
  hl.handle request response
  = (no_error, hl.dump (RequestHandler.responseObject request) response).
Proof.
  unfold hl.handle, RequestHandler.responseObject.
  destruct (hl.RequestObject_ctor request) as [requestObject | what];
    [|reflexivity].
  destruct (hl.getTokenizer (hl.RequestObject.buf_type requestObject))
    as [tokenizer|]; [|reflexivity].
  now destruct (hl.tokenize _ _ _ _).
Qed.

(** X12. In every response that [handle] serialises, parse errors being
    descriptive, the status is success exactly when the message is empty.
    A success response and a response with result items can only come from
    a request that parsed and whose type has a tokenizer; it then echoes
    the sequence number, identifier, type and name of that request and
    carries the tokens of that tokenizer. *)
Theorem response_status_and_message (request response : std_string) :
  hl.descriptive_parse_errors C ->
  let r := RequestHandler.responseObject request in
  hl.handle request response = (no_error, hl.dump r response)
  /\ (hl.ResponseObject.return_code r = hl.SUCCESS_CODE
      <-> hl.ResponseObject.error_message r = [])
  /\ (hl.ResponseObject.return_code r = hl.SUCCESS_CODE
      \/ hl.ResponseObject.tokens r <> [] ->
      exists requestObject tokenizer,
        hl.RequestObject_ctor request = inl requestObject
        /\ hl.getTokenizer (hl.RequestObject.buf_type requestObject)
           = Some tokenizer
        /\ hl.ResponseObject.msg_num r
           = hl.RequestObject.msg_num requestObject
        /\ hl.ResponseObject.id r = hl.RequestObject.id requestObject
        /\ hl.ResponseObject.buf_type r
           = hl.RequestObject.buf_type requestObject
        /\ hl.ResponseObject.buf_name r
           = hl.RequestObject.buf_name requestObject
        /\ hl.ResponseObject.tokens r
           = snd (hl.tokenize
                    tokenizer
                    (hl.RequestObject.buf_name requestObject)
                    (hl.RequestObject.buf_body requestObject)
                    (hl.RequestObject.additional_info requestObject))).
Proof.
  intros D r. split; [apply handle_dumps|]. subst r.
  unfold RequestHandler.responseObject.
  destruct (hl.RequestObject_ctor request) as [requestObject | what] eqn:E.
  - destruct (hl.getTokenizer (hl.RequestObject.buf_type requestObject))
      as [tokenizer|] eqn:G.
    + destruct (hl.tokenize _ _ _ _) as [status tokens] eqn:T. cbn. split.
      * destruct status; cbn; split; congruence.
      * intros _. exists requestObject, tokenizer. rewrite T.
        now repeat split.
    + cbn. split.
      * split; discriminate.
      * intros [H | H]; [discriminate | congruence].
  - cbn. split.
    + split; [discriminate|]. intros ->. now apply D in E.
    + intros [H | H]; [discriminate | congruence].
Qed.

(** X13. Through a session whose handler is this request handler, and
    with a serialisation that is never empty, no request closes the
    connection, whatever its payload: a read that completes on a non-empty
    buffer leaves the socket and the owner's connection as they are, and
    issues exactly one operation, the write of a response or the next
    read. *)
Theorem payload_failures_never_close
        (w : Ambient) (factory : AbstractHandlerFactory)
        (n : N) (s : SessionImp) :
  (forall r b, hl.dump r b <> []) ->
  getHandlerFactory w = Some factory ->
  getRequestHandler factory = Some RequestHandler.as_handler ->
  coro s = coro_at_read -> req_ s <> [] ->
  exists s1 t,
    operator_call w no_error n s = Some (tt, s1, t)
    /\ sock_ s1 = sock_ s /\ closeConnection s1 = closeConnection s
    /\ notifications t = 0 /\ socket_operations t = []
    /\ reads_issued t + length (written t) = 1.
Proof.
  intros Hdump Hw Hh Hc Hne.
  destruct (@read_completed_cases w factory RequestHandler.as_handler n s
              Hw Hh Hc)
    as [(Hr & _)
       | [(frames & partial & t & _ & _ & _ & _ & Hop & _ & Hwr & Hrd
           & Hn & Hs)
         | (earlier & frame & t & _ & _ & _ & Hrd
            & [(F & _) | (_ & _ & Hop & Hwr & Hn & Hs)])]].
  - congruence.
  - exists (set_coro coro_at_read (set_req partial s)), t.
    rewrite Hwr, Hrd. now repeat split.
  - exfalso. cbn [handle RequestHandler.as_handler] in F.
    rewrite handle_dumps in F. cbn in F.
    specialize (Hdump (RequestHandler.responseObject frame) (res_ s)).
    destruct (hl.dump _ _); [congruence | discriminate].
  - eexists. exists t. rewrite Hwr, Hrd. split; [exact Hop|].
    now repeat split.
Qed.

End ResponseObjectProperties.

Lemma response_status_and_message_witness :
  hl.descriptive_parse_errors Demo.collaborators
  /\ (hl.ResponseObject.return_code
        (@RequestHandler.responseObject Demo.collaborators (lit "labc"))
      = hl.SUCCESS_CODE
      <-> hl.ResponseObject.error_message
            (@RequestHandler.responseObject Demo.collaborators (lit "labc"))
          = [])
  /\ (hl.ResponseObject.return_code
        (@RequestHandler.responseObject Demo.collaborators (lit "sabc"))
      = hl.SUCCESS_CODE
      <-> hl.ResponseObject.error_message
            (@RequestHandler.responseObject Demo.collaborators (lit "sabc"))
          = []).
Proof.
  assert (D : hl.descriptive_parse_errors Demo.collaborators).
  { intros request what. cbn. unfold Demo.parse.
    destruct request; [|discriminate]. intros E. injection E as <-.
    discriminate. }
  split; [exact D|]. split.
  - exact (proj1 (proj2 (@response_status_and_message
                           Demo.collaborators (lit "labc") [] D))).
  - exact (proj1 (proj2 (@response_status_and_message
                           Demo.collaborators (lit "sabc") [] D))).
Defined.

Lemma payload_failures_never_close_witness :
  (forall r b, @hl.dump Demo.collaborators r b <> [])
  /\ exists s1 t,
      operator_call Demo.ambient no_error 1 (Demo.reading Demo.nl)
      = Some (tt, s1, t)
      /\ sock_ s1 = true /\ closeConnection s1 = true
      /\ notifications t = 0 /\ socket_operations t = []
      /\ reads_issued t + length (written t) = 1.
Proof.
  assert (D : forall r b, @hl.dump Demo.collaborators r b <> []).
  { intros r b. destruct r as [? ? ? ? [|] ? ?]; cbn; discriminate. }
  split; [exact D|].
  exact (@payload_failures_never_close
           Demo.collaborators Demo.ambient
           {| getRequestHandler := Some Demo.handler |} 1
           (Demo.reading Demo.nl) D eq_refl eq_refl eq_refl
           (fun E => match E in _ = l return match l with
                                             | [] => False
                                             | _ :: _ => True
                                             end
                     with eq_refl => I end)).
Defined.

(* --------------------------------------------------------------------- *)
(** ** The tokens of a buffer                                             *)
(* --------------------------------------------------------------------- *)

Lemma wire_join (f : std_string) (frames : list std_string) :
  wire (f :: frames) = join (f :: frames) ++ [DATA_DELIMITER].
Proof.
  revert f. induction frames as [|g frames IH]; intros f.
  - cbn. now rewrite app_nil_r.
  - change (wire (f :: g :: frames))
      with ((f ++ [DATA_DELIMITER]) ++ wire (g :: frames)).
    rewrite IH. cbn [join]. now rewrite <- !app_assoc.
Qed.

Lemma join_partial (frames : list std_string) (p : std_string) :
  join (frames ++ [p]) = wire frames ++ p.
Proof.
  induction frames as [|f frames IH]; [reflexivity|].
  change (wire (f :: frames)) with ((f ++ [DATA_DELIMITER]) ++ wire frames).
  cbn [app join]. destruct (frames ++ [p]) as [|x r] eqn:E.
  - now destruct frames.
  - rewrite IH. now rewrite <- !app_assoc.
Qed.

(** Every buffer has a last token, and fewer tokens before it than
    bytes. *)
Lemma tokens_snoc (buf : std_string) :
  exists before last_token,
    sregex_token_iterator buf = before ++ [last_token]
    /\ Forall no_delimiter (before ++ [last_token])
    /\ length before <= length buf
    /\ buf = join (before ++ [last_token])
               ++ match rbegin buf with
                  | Some c => if is_delimiter c then [DATA_DELIMITER] else []
                  | None => []
                  end.
Proof.
  destruct (split_frames_spec buf) as (E & F & P).
  destruct (split_frames buf) as [frames partial]. cbn [fst snd] in *.
  pose proof (length_wire frames) as L.
  assert (B : length buf = length (wire frames) + length partial)
    by (rewrite E at 1; apply length_app).
  destruct partial as [|c partial].
  - rewrite app_nil_r in E.
    destruct frames as [|f frames] using rev_ind.
    + exists [], []. subst buf. repeat split; repeat constructor.
    + exists frames, f. rewrite E at 1. split; [|split; [|split]].
      * now apply sregex_token_iterator_frames.
      * assumption.
      * rewrite length_app in L. cbn in L. lia.
      * rewrite E. rewrite rbegin_wire, is_delimiter_DATA_DELIMITER.
        destruct (frames ++ [f]) as [|x r] eqn:Ex;
          [now destruct frames | apply wire_join].
  - exists frames, (c :: partial). rewrite E at 1. split; [|split; [|split]].
    + now apply sregex_token_iterator_partial.
    + apply Forall_app. split; [assumption|].
      constructor; [exact P | constructor].
    + lia.
    + rewrite join_partial.
      assert (R : exists x, rbegin buf = Some x /\ is_delimiter x = false).
      { destruct (@exists_last _ (c :: partial)) as (p & x & Ex);
          [discriminate|].
        rewrite E, Ex. rewrite Ex in P.
        exists x. rewrite app_assoc, rbegin_app. split; [reflexivity|].
        apply Forall_app in P. destruct P as [_ P]. now inversion P. }
      destruct R as (x & -> & ->). now rewrite app_nil_r.
Qed.

(** X14. The tokens the session gets from any read buffer: there is at
    least one, none of them contains the delimiter, and joining them with
    one delimiter between each two gives the buffer back, up to the final
    delimiter of a buffer that ends with one. *)
Theorem tokens_rejoin (buf : std_string) :
  sregex_token_iterator buf <> []
  /\ Forall no_delimiter (sregex_token_iterator buf)
  /\ buf = join (sregex_token_iterator buf)
             ++ match rbegin buf with
                | Some c => if is_delimiter c then [DATA_DELIMITER] else []
                | None => []
                end.
Proof.
  destruct (tokens_snoc buf) as (before & last_token & -> & F & _ & E).
  repeat split; try assumption. now destruct before.
Qed.

(** X15. On any read buffer the loop of lines 113-116 ends with the
    iterator on the last token, which exists, so that
    [requestIterator->str()] is defined; the counter is the number of
    tokens before it, at most the number of bytes of the buffer, so the
    [int] does not overflow on a buffer shorter than 2^31 bytes. *)
Theorem loop_stops_on_last_token (buf : std_string) :
  exists before last_token,
    sregex_token_iterator buf = before ++ [last_token]
    /\ skip_to_last (sregex_token_iterator buf) 0
       = ([last_token], Z.of_nat (length before))
    /\ length before <= length buf
    /\ (Z.of_nat (length buf) < 2 ^ 31 ->
        0 <= snd (skip_to_last (sregex_token_iterator buf) 0) < 2 ^ 31)%Z.
Proof.
  destruct (tokens_snoc buf) as (before & last_token & E & _ & L & _).
  exists before, last_token. rewrite E, skip_to_last_app. cbn [snd].
  repeat split; try assumption; lia.
Qed.

(* --------------------------------------------------------------------- *)
(** ** start()                                                            *)
(* --------------------------------------------------------------------- *)

(** X16. [start()] is for one call.  On a fresh session it logs, issues
    the read and leaves the session suspended on it.  A second [start()]
    re-enters the coroutine as if that read had completed: with a handler
    available and nothing in the read buffer it evaluates
    [*req_.rbegin()] on the empty string. *)
Theorem start_is_for_one_call
        (w w' : Ambient) (sock_is_open : bool) :
  ~ no_handler w' ->
  Session.run [Session.Start w] (SessionImp_new sock_is_open)
  = Some (set_coro coro_at_read (SessionImp_new sock_is_open),
          [Session.line Session.start_session;
           Session.imp async_read_until])
  /\ Session.run [Session.Start w; Session.Start w']
                 (SessionImp_new sock_is_open)
     = None.
Proof.
  intros NH. split; [reflexivity|].
  cbn [Session.run Session.call]. unfold Session.start, start.
  rewrite first_activation by reflexivity.
  assert (U : operator_call w' no_error 0
                (set_coro coro_at_read (SessionImp_new sock_is_open)) = None).
  { destruct (getHandlerFactory w') as [factory|] eqn:Hw;
      [|exfalso; apply NH; now left].
    destruct (getRequestHandler factory) as [h|] eqn:Hh;
      [|exfalso; apply NH; right; now exists factory].
    now apply read_completed_empty with factory h. }
  now rewrite U.
Qed.

Lemma start_is_for_one_call_witness :
  ~ no_handler Demo.ambient
  /\ Session.run [Session.Start Demo.ambient; Session.Start Demo.ambient]
                 (SessionImp_new true)
     = None.
Proof.
  assert (NH : ~ no_handler Demo.ambient).
  { intros [E | (f & E1 & E2)]; [discriminate E|].
    injection E1 as <-. discriminate E2. }
  split; [exact NH|].
  exact (proj2 (@start_is_for_one_call Demo.ambient Demo.ambient true NH)).
Defined.
